(** * Gradient editor: state model, coordinate mapping and CSS rendering

    A shallow embedding of the [GradientEditor] React component of
    [src/pages/Index.tsx].  The source file carries the component twice: an
    earlier text (no sorting, no angle normalisation, no stop removal) and
    the later text that supersedes it.  The later text is the program
    modelled at top level; the two expressions of the earlier text that
    differ are kept in [Module Earlier].

    Numbers.  A JavaScript [number] is modelled by [JS.number]: a rational
    (every finite binary64 value is one), the two infinities and NaN.
    Arithmetic on finite values is exact: binary64 rounding and the sign of
    zero are not modelled (a zero divisor is read as [+0], the only zero a
    bounding rectangle's width takes).  Pointer coordinates and rectangle
    fields are always finite, so they are rationals; values the component
    computes and stores are [JS.number], because a division by a zero width
    produces an infinity or NaN.

    Rounding.  Where a property depends on how the language rounds, the
    computation is modelled a second time with every operation rounded
    ([dragPositionRounded], [normalizeAngleRounded]), for any rounding that
    keeps the order and leaves the numbers of the format as they are;
    [binary64] is the rounding of the language, and the exact model is the
    instance where nothing is rounded. *)

From Stdlib Require Import QArith Qround ZArith List String Bool Lia Lqa.
From Stdlib Require Import DecimalString Qpower.
From Stdlib Require Import Sorting.Sorted Sorting.Permutation.
Import ListNotations.

Local Open Scope Q_scope.

(* ================================================================== *)
(** ** JavaScript numbers and the built-ins the component calls       *)
(* ================================================================== *)

Module JS.

Inductive number : Type :=
| NaN
| PosInf
| NegInf
| Fin (q : Q).

Definition is_NaN (a : number) : bool :=
  match a with NaN => true | _ => false end.

(** [a < b] and [a <= b] of the language: false as soon as one side is NaN. *)
Definition ltb (a b : number) : bool :=
  match a, b with
  | NaN, _ | _, NaN => false
  | _, NegInf => false
  | NegInf, _ => true
  | PosInf, _ => false
  | Fin _, PosInf => true
  | Fin x, Fin y => negb (Qle_bool y x)
  end.

Definition leb (a b : number) : bool :=
  match a, b with
  | NaN, _ | _, NaN => false
  | NegInf, _ => true
  | _, PosInf => true
  | _, NegInf => false
  | PosInf, _ => false
  | Fin x, Fin y => Qle_bool x y
  end.

Definition le (a b : number) : Prop := leb a b = true.
Definition lt (a b : number) : Prop := ltb a b = true.

(** Numeric equality ([==] on numbers): rationals up to [Qeq], NaN equal to
    nothing. *)
Definition eqb (a b : number) : bool :=
  match a, b with
  | PosInf, PosInf | NegInf, NegInf => true
  | Fin x, Fin y => Qeq_bool x y
  | _, _ => false
  end.

Definition eq (a b : number) : Prop := eqb a b = true.

(** [a - b]. *)
Definition sub (a b : number) : number :=
  match a, b with
  | NaN, _ | _, NaN => NaN
  | PosInf, PosInf | NegInf, NegInf => NaN
  | PosInf, _ => PosInf
  | NegInf, _ => NegInf
  | Fin _, PosInf => NegInf
  | Fin _, NegInf => PosInf
  | Fin x, Fin y => Fin (Qred (x - y))
  end.

(** An infinity scaled by a finite factor. *)
Definition scale_inf (positive : bool) (y : Q) : number :=
  match y ?= 0 with
  | Eq => NaN
  | Gt => if positive then PosInf else NegInf
  | Lt => if positive then NegInf else PosInf
  end.

(** [a * b]. *)
Definition mul (a b : number) : number :=
  match a, b with
  | NaN, _ | _, NaN => NaN
  | PosInf, PosInf | NegInf, NegInf => PosInf
  | PosInf, NegInf | NegInf, PosInf => NegInf
  | PosInf, Fin y | Fin y, PosInf => scale_inf true y
  | NegInf, Fin y | Fin y, NegInf => scale_inf false y
  | Fin x, Fin y => Fin (Qred (x * y))
  end.

(** [a / b]; a finite zero divisor stands for [+0]. *)
Definition div (a b : number) : number :=
  match a, b with
  | NaN, _ | _, NaN => NaN
  | (PosInf | NegInf), (PosInf | NegInf) => NaN
  | PosInf, Fin y => if Qle_bool 0 y then PosInf else NegInf
  | NegInf, Fin y => if Qle_bool 0 y then NegInf else PosInf
  | Fin _, (PosInf | NegInf) => Fin 0
  | Fin x, Fin y =>
      match y ?= 0 with
      | Eq => match x ?= 0 with
              | Eq => NaN
              | Gt => PosInf
              | Lt => NegInf
              end
      | _ => Fin (Qred (x / y))
      end
  end.

(** [Math.min(a, b)] and [Math.max(a, b)]: NaN as soon as one argument is. *)
Definition Math_min (a b : number) : number :=
  match a, b with
  | NaN, _ | _, NaN => NaN
  | _, _ => if leb a b then a else b
  end.

Definition Math_max (a b : number) : number :=
  match a, b with
  | NaN, _ | _, NaN => NaN
  | _, _ => if leb a b then b else a
  end.

(** Truncation towards zero, and the remainder [a % n] of the language,
    which takes the sign of the dividend. *)
Definition Qtrunc (x : Q) : Z :=
  if Qle_bool 0 x then Qfloor x else Qceiling x.

Definition Qrem (a n : Q) : Q :=
  a - n * inject_Z (Qtrunc (a / n)).

(** [Math.round]: the nearest integer, halves going up. *)
Definition Qround (x : Q) : Z := Qfloor (x + (1 # 2)).

Definition Math_round (a : number) : number :=
  match a with
  | Fin x => Fin (inject_Z (Qround x))
  | other => other
  end.

(** Number-to-string conversion, for worked examples.  It follows the
    language on NaN, the infinities and integers (below [10^21] in
    magnitude); any other value is printed by its decimal expansion, cut
    after 17 fractional digits, where the language prints the shortest
    decimal that reads back as the same binary64. *)
Definition showZ (z : Z) : string := NilZero.string_of_int (Z.to_int z).

Fixpoint fraction_digits (fuel : nat) (r den : Z) : string :=
  match fuel with
  | O => EmptyString
  | S fuel' =>
      if (r =? 0)%Z then EmptyString
      else String.append (showZ (10 * r / den))
             (fraction_digits fuel' ((10 * r) mod den) den)
  end.

Definition showNumber (a : number) : string :=
  match a with
  | NaN => "NaN"%string
  | PosInf => "Infinity"%string
  | NegInf => "-Infinity"%string
  | Fin q =>
      let n := Qnum q in
      let d := Z.pos (Qden q) in
      let whole := showZ (Z.quot n d) in
      let r := Z.abs (Z.rem n d) in
      if (r =? 0)%Z then whole
      else
        let sign :=
          if ((n <? 0) && (Z.quot n d =? 0))%Z%bool
          then "-"%string else EmptyString in
        String.append sign
          (String.append whole
             (String.append "."%string (fraction_digits 17 r d)))
  end.

(** [Array.prototype.sort(comparefn)].  The comparator's result is read as
    the language prescribes: NaN counts as [0], and only its sign matters.
    The sort is stable; stable insertion is the model (for a consistent
    comparator stability determines the result, whatever the engine's
    algorithm). *)
Section ArraySort.
Context {A : Type}.
Variable comparefn : A -> A -> number.

Definition SortCompare (x y : A) : number :=
  let v := comparefn x y in
  if is_NaN v then Fin 0 else v.

(** [x] must come after [y]. *)
Definition after (x y : A) : bool := ltb (Fin 0) (SortCompare x y).

Fixpoint sort_insert (x : A) (l : list A) : list A :=
  match l with
  | [] => [x]
  | y :: r => if after x y then y :: sort_insert x r else x :: y :: r
  end.

Fixpoint Array_sort (l : list A) : list A :=
  match l with
  | [] => []
  | x :: r => sort_insert x (Array_sort r)
  end.
End ArraySort.

End JS.

Declare Scope js_scope.
Delimit Scope js_scope with js.
Notation "a - b" := (JS.sub a b) : js_scope.
Notation "a * b" := (JS.mul a b) : js_scope.
Notation "a / b" := (JS.div a b) : js_scope.
Notation "a <= b" := (JS.le a b) : js_scope.
Notation "a < b" := (JS.lt a b) : js_scope.
Notation "a == b" := (JS.eq a b) : js_scope.

Coercion JS.Fin : Q >-> JS.number.

Local Open Scope string_scope.
Local Open Scope list_scope.

(* ================================================================== *)
(** ** Data model                                                     *)
(* ================================================================== *)

(** [interface ColorStop]. *)
Record ColorStop : Type := mkColorStop {
  color : string;
  position : JS.number;
  id : string
}.

(** The object spreads [{ ...stop, position }] and [{ ...stop, color }]. *)
Definition with_position (stop : ColorStop) (p : JS.number) : ColorStop :=
  {| color := color stop; position := p; id := id stop |}.

Definition with_color (stop : ColorStop) (c : string) : ColorStop :=
  {| color := c; position := position stop; id := id stop |}.

(** The four [useState] cells of the component.  [colorStops] is the array
    object held by the state cell: a handler that passes a new array to
    [setColorStops] replaces it, and code that mutates the array in place
    changes the stored value itself. *)
Record State : Type := mkState {
  angle : JS.number;
  colorStops : list ColorStop;
  draggingStop : option string;
  isDraggingAngle : bool
}.

Definition setAngle (a : JS.number) (s : State) : State :=
  {| angle := a; colorStops := colorStops s;
     draggingStop := draggingStop s; isDraggingAngle := isDraggingAngle s |}.

(** [setColorStops(updater)] with a functional updater. *)
Definition setColorStops (updater : list ColorStop -> list ColorStop)
    (s : State) : State :=
  {| angle := angle s; colorStops := updater (colorStops s);
     draggingStop := draggingStop s; isDraggingAngle := isDraggingAngle s |}.

Definition setDraggingStop (d : option string) (s : State) : State :=
  {| angle := angle s; colorStops := colorStops s;
     draggingStop := d; isDraggingAngle := isDraggingAngle s |}.

Definition setIsDraggingAngle (b : bool) (s : State) : State :=
  {| angle := angle s; colorStops := colorStops s;
     draggingStop := draggingStop s; isDraggingAngle := b |}.

(** The initial values given to [useState]. *)
Definition initialStops : list ColorStop :=
  [ {| color := "#4A90E2"; position := JS.Fin 0; id := "1" |};
    {| color := "#50E3C2"; position := JS.Fin 100; id := "2" |} ].

Definition initialState : State :=
  {| angle := JS.Fin 90; colorStops := initialStops;
     draggingStop := None; isDraggingAngle := false |}.

(** What a handler reads from its mouse event, and the rectangle that
    [getBoundingClientRect()] returns. *)
Record MouseEvent : Type := mkMouseEvent {
  clientX : Q;
  clientY : Q
}.

Record DOMRect : Type := mkDOMRect {
  rect_left : Q;
  rect_top : Q;
  rect_width : Q;
  rect_height : Q
}.

(** The notifications of [sonner]'s [toast]. *)
Inductive Toast : Type :=
| toast_error (message : string)
| toast_success (message : string).

(** Truthiness of [draggingStop : string | null]: [null] and the empty
    string are falsy. *)
Definition truthy (d : option string) : bool :=
  match d with
  | Some i => negb (String.eqb i "")
  | None => false
  end.

(* ================================================================== *)
(** ** Rendering                                                      *)
(* ================================================================== *)

(** The comparator [(a, b) => a.position - b.position]. *)
Definition byPosition (a b : ColorStop) : JS.number :=
  (position a - position b)%js.

(** [colorStops.sort((a, b) => a.position - b.position)]: the array of the
    state cell, sorted in place. *)
Definition sortColorStops (s : State) : State :=
  {| angle := angle s;
     colorStops := JS.Array_sort byPosition (colorStops s);
     draggingStop := draggingStop s; isDraggingAngle := isDraggingAngle s |}.

Section Render.
(** Number-to-string conversion of template literals, a built-in of the
    language; the rendering is generic in it. *)
Variable numberToString : JS.number -> string.

(** [`${stop.color} ${stop.position}%`]. *)
Definition formatStop (stop : ColorStop) : string :=
  (color stop ++ " " ++ numberToString (position stop) ++ "%")%string.

Definition linearGradient (a : JS.number) (stops : list ColorStop) : string :=
  ("linear-gradient(" ++ numberToString a ++ "deg, "
     ++ String.concat ", " (map formatStop stops) ++ ")")%string.

(** [gradientString], evaluated in the body of the component at every
    render.  [colorStops.sort(...)] sorts the state's array in place and
    returns that same array: the second component is the state as the
    evaluation leaves it. *)
Definition gradientString (s : State) : string * State :=
  let s' := sortColorStops s in
  (linearGradient (angle s) (colorStops s'), s').
End Render.

(* ================================================================== *)
(** ** Event handlers                                                 *)
(* ================================================================== *)

Local Open Scope Q_scope.

(** The local [position] of [handleStopDrag]:
    [Math.max(0, Math.min(100, (x / rect.width) * 100))] with
    [x = e.clientX - rect.left]. *)
Definition dragPosition (e : MouseEvent) (rect : DOMRect) : JS.number :=
  let x := clientX e - rect_left rect in
  JS.Math_max (JS.Fin 0)
    (JS.Math_min (JS.Fin 100)
       (JS.Fin x / JS.Fin (rect_width rect) * JS.Fin 100)%js).

(** The local [position] of [handleSliderClick]: [(x / rect.width) * 100]. *)
Definition clickPosition (e : MouseEvent) (rect : DOMRect) : JS.number :=
  let x := clientX e - rect_left rect in
  (JS.Fin x / JS.Fin (rect_width rect) * JS.Fin 100)%js.

(** [handleStopDrag(e, stopId)]; [slider] is [sliderRef.current], given by
    its bounding rectangle, [None] when the ref is not set. *)
Definition handleStopDrag (e : MouseEvent) (slider : option DOMRect)
    (stopId : string) (s : State) : State :=
  match slider with
  | None => s
  | Some rect =>
      let position := dragPosition e rect in
      setColorStops
        (map (fun stop =>
                if String.eqb (id stop) stopId
                then with_position stop position else stop)) s
  end.

(** [handleColorChange(color, stopId)]. *)
Definition handleColorChange (color : string) (stopId : string)
    (s : State) : State :=
  setColorStops
    (map (fun stop =>
            if String.eqb (id stop) stopId
            then with_color stop color else stop)) s.

(** [handleSliderClick(e)]; [newId] is the value [uuidv4()] returns. *)
Definition handleSliderClick (e : MouseEvent) (slider : option DOMRect)
    (newId : string) (s : State) : State :=
  match slider with
  | None => s
  | Some rect =>
      if truthy (draggingStop s) then s
      else
        let position := clickPosition e rect in
        let newStop :=
          {| color := "#FFFFFF"; position := position; id := newId |} in
        setColorStops (fun prev => prev ++ [newStop]) s
  end.

(** [((angle % 360) + 360) % 360]. *)
Definition normalizeAngle (a : Q) : Q :=
  JS.Qrem (JS.Qrem a 360 + 360) 360.

(** What [handleAngleChange] stores for a raw angle [a]: the normalised
    angle, rounded. *)
Definition storedAngle (a : Q) : Z := JS.Qround (normalizeAngle a).

(** [removeColorStop(stopId)], with the notifications it raises. *)
Definition removeColorStop (stopId : string) (s : State)
    : State * list Toast :=
  if (List.length (colorStops s) <=? 2)%nat
  then (s, [toast_error "Minimum 2 color stops required"])
  else (setColorStops
          (filter (fun stop => negb (String.eqb (id stop) stopId))) s, []).

(** The [onChange] of a stop's numeric input, [value] being
    [Number(e.target.value)] and [stop] the stop of the row: the clamped
    [position] is computed and not used. *)
Definition positionInputChange (value : JS.number) (stop : ColorStop)
    (s : State) : State :=
  let position := JS.Math_max (JS.Fin 0) (JS.Math_min (JS.Fin 100) value) in
  handleColorChange (color stop) (id stop) s.

Section Angle.
(** [Math.atan2(y, x) * (180 / Math.PI)], a built-in: the handlers are
    generic in it. *)
Variable atan2_degrees : Q -> Q -> Q.

(** The raw angle both angle handlers compute from the pointer. *)
Definition pointerAngle (e : MouseEvent) (rect : DOMRect) : Q :=
  let center_x := rect_left rect + rect_width rect / 2 in
  let center_y := rect_top rect + rect_height rect / 2 in
  atan2_degrees (clientY e - center_y) (clientX e - center_x) + 90.

(** [handleAngleChange(e)]; [wheel] is [wheelRef.current]. *)
Definition handleAngleChange (e : MouseEvent) (wheel : option DOMRect)
    (s : State) : State :=
  match wheel with
  | None => s
  | Some rect =>
      let angle := pointerAngle e rect in
      let angle := normalizeAngle angle in
      setAngle (JS.Math_round (JS.Fin angle)) s
  end.

(** What the user and the framework do to the component. *)
Inductive Event : Type :=
| Render
| StopMouseDown (stopId : string)
| WheelMouseDown (e : MouseEvent) (wheel : option DOMRect)
| DocumentMouseMove (e : MouseEvent) (slider wheel : option DOMRect)
| DocumentMouseUp
| SliderClick (e : MouseEvent) (slider : option DOMRect) (newId : string)
| ColorInput (color : string) (stopId : string)
| PositionInput (value : JS.number) (stop : ColorStop)
| RemoveClick (stopId : string)
| CopyClick.

(** One event: the new state and the notifications raised.  The document
    listeners exist only while the matching drag is active. *)
Definition step (ev : Event) (s : State) : State * list Toast :=
  match ev with
  | Render => (sortColorStops s, [])
  | StopMouseDown stopId => (setDraggingStop (Some stopId) s, [])
  | WheelMouseDown e wheel =>
      (handleAngleChange e wheel (setIsDraggingAngle true s), [])
  | DocumentMouseMove e slider wheel =>
      let s1 := if isDraggingAngle s then handleAngleChange e wheel s else s in
      let s2 :=
        match draggingStop s with
        | Some stopId =>
            if truthy (draggingStop s)
            then handleStopDrag e slider stopId s1 else s1
        | None => s1
        end in
      (s2, [])
  | DocumentMouseUp =>
      let s1 := if isDraggingAngle s then setIsDraggingAngle false s else s in
      let s2 := if truthy (draggingStop s) then setDraggingStop None s1 else s1 in
      (s2, [])
  | SliderClick e slider newId => (handleSliderClick e slider newId s, [])
  | ColorInput color stopId => (handleColorChange color stopId s, [])
  | PositionInput value stop => (positionInputChange value stop s, [])
  | RemoveClick stopId => removeColorStop stopId s
  | CopyClick => (s, [toast_success "CSS copied to clipboard!"])
  end.

(** [uuidv4()] is not part of the component; what it returns is carried
    by the click event.  A click is admissible in a state when that
    identifier is fresh there, which is all the component relies on. *)
Definition admissible (ev : Event) (s : State) : Prop :=
  match ev with
  | SliderClick _ _ newId => ~ In newId (map id (colorStops s))
  | _ => True
  end.

(** The states the component reaches from its initial state. *)
Inductive reachable : State -> Prop :=
| reachable_initial : reachable initialState
| reachable_step (ev : Event) (s : State) :
    reachable s -> admissible ev s -> reachable (fst (step ev s)).
End Angle.

(** The earlier text of the component, where it differs. *)
Module Earlier.
Section EarlierText.
Variable numberToString : JS.number -> string.
Variable atan2_degrees : Q -> Q -> Q.

(** [gradientString] without the sort: the stops in array order. *)
Definition gradientString (s : State) : string * State :=
  (linearGradient numberToString (angle s) (colorStops s), s).

(** [handleAngleWheel(e)]: the raw angle rounded, not normalised. *)
Definition handleAngleWheel (e : MouseEvent) (wheel : option DOMRect)
    (s : State) : State :=
  match wheel with
  | None => s
  | Some rect =>
      let angle := pointerAngle atan2_degrees e rect in
      setAngle (JS.Math_round (JS.Fin angle)) s
  end.
End EarlierText.
End Earlier.

(* ================================================================== *)
(** ** Rounded arithmetic                                             *)
(* ================================================================== *)

(** The language computes in binary64: an arithmetic operation returns its
    exact result rounded.  [rnd] is the rounding of a finite exact result,
    to a finite number or, past the largest one, to an infinity; results
    that are not finite (an infinity, NaN) are those of the exact
    operation. *)
Section Rounded.
Variable rnd : Q -> JS.number.

Definition roundResult (a : JS.number) : JS.number :=
  match a with
  | JS.Fin q => rnd q
  | other => other
  end.

(** The local [position] of [handleStopDrag], each operation rounded:
    [x = e.clientX - rect.left], then
    [Math.max(0, Math.min(100, (x / rect.width) * 100))]. *)
Definition dragPositionRounded (e : MouseEvent) (rect : DOMRect)
    : JS.number :=
  let x := roundResult (JS.Fin (clientX e) - JS.Fin (rect_left rect))%js in
  JS.Math_max (JS.Fin 0)
    (JS.Math_min (JS.Fin 100)
       (roundResult
          (roundResult (x / JS.Fin (rect_width rect))%js * JS.Fin 100)%js)).
End Rounded.

(** Rounding to the nearest binary64 number, ties to even: 53 significant
    bits, the smallest exponent -1022 (below it the spacing stays that of
    the subnormal numbers), and an infinity from [2^1024] on.  [Qlog2 m] is
    the exponent of the binade of a positive [m]. *)
Definition Qlog2 (m : Q) : Z :=
  let c := (Z.log2 (Qnum m) - Z.log2 (Z.pos (Qden m)))%Z in
  if Qle_bool (2 ^ c) m then c else (c - 1)%Z.

Definition nearestEven (t : Q) : Z :=
  let f := Qfloor t in
  match (t - inject_Z f ?= 1 # 2)%Q with
  | Lt => f
  | Gt => (f + 1)%Z
  | Eq => if Z.even f then f else (f + 1)%Z
  end.

Definition ulpExponent (m : Q) : Z := (Z.max (Qlog2 m) (-1022) - 52)%Z.

Definition roundMagnitude (m : Q) : Q :=
  inject_Z (nearestEven (m / 2 ^ ulpExponent m)) * 2 ^ ulpExponent m.

Definition binary64 (q : Q) : JS.number :=
  match q ?= 0 with
  | Eq => JS.Fin 0
  | Gt =>
      let r := roundMagnitude q in
      if Qle_bool (2 ^ 1024) r then JS.PosInf else JS.Fin (Qred r)
  | Lt =>
      let r := roundMagnitude (- q) in
      if Qle_bool (2 ^ 1024) r then JS.NegInf else JS.Fin (Qred (- r))
  end.

(** [((angle % 360) + 360) % 360] in the arithmetic of the language: the
    remainder [%] of two finite numbers is exact, the sum is rounded, and
    the remainder of an infinity is NaN.  Then [Math.round] of it. *)
Definition normalizeAngleRounded (rnd : Q -> JS.number) (a : Q) : JS.number :=
  match rnd (JS.Qrem a 360 + 360) with
  | JS.Fin v => JS.Fin (JS.Qrem v 360)
  | _ => JS.NaN
  end.

Definition storedAngleRounded (rnd : Q -> JS.number) (a : Q) : JS.number :=
  JS.Math_round (normalizeAngleRounded rnd a).

(** Rounding to nearest, as binary64 does it, never reverses an order, and
    leaves the numbers of the format as they are. *)
Definition monotoneRounding (rnd : Q -> JS.number) : Prop :=
  forall x y, x <= y -> JS.le (rnd x) (rnd y).

Definition representable (rnd : Q -> JS.number) (q : Q) : Prop :=
  JS.eq (rnd q) (JS.Fin q).

Definition correctRounding (rnd : Q -> JS.number) : Prop :=
  monotoneRounding rnd
  /\ representable rnd 0 /\ representable rnd 1 /\ representable rnd 100.

(* ================================================================== *)
(** ** Predicates of the specification                                *)
(* ================================================================== *)

(** The order [byPosition] induces on stops. *)
Definition positionLe (a b : ColorStop) : Prop :=
  JS.le (position a) (position b).

(** The stop's position is a number. *)
Definition hasPosition (stop : ColorStop) : Prop := position stop <> JS.NaN.

(** The stop's position lies in [[0, 100]]. *)
Definition inRange (stop : ColorStop) : Prop :=
  JS.le (JS.Fin 0) (position stop) /\ JS.le (position stop) (JS.Fin 100).

(** The specification's [pointerToPercent]:
    [clamp(((pointerX - rectLeft) / rectWidth) * 100, 0, 100)] over the
    rationals. *)
Definition clamp (v lo hi : Q) : Q :=
  if Qle_bool v lo then lo else if Qle_bool hi v then hi else v.

Definition pointerToPercent (pointerX rectLeft rectWidth : Q) : Q :=
  clamp ((pointerX - rectLeft) / rectWidth * 100) 0 100.

(** The stops that remain when those with identifier [stopId] go. *)
Definition withoutStop (stopId : string) (stops : list ColorStop)
    : list ColorStop :=
  filter (fun stop => negb (String.eqb (id stop) stopId)) stops.

(** The identifiers of a state's stops are pairwise distinct. *)
Definition uniqueIds (s : State) : Prop := NoDup (map id (colorStops s)).

(** Stops and states of the worked examples. *)
Definition stopAt (c : string) (p : Q) (i : string) : ColorStop :=
  {| color := c; position := JS.Fin p; id := i |}.

Definition threeStops : State :=
  {| angle := JS.Fin 90;
     colorStops := [stopAt "#FF0000" 80 "a"; stopAt "#00FF00" 10 "b";
                    stopAt "#0000FF" 50 "c"];
     draggingStop := None; isDraggingAngle := false |}.

(** A slider of width 100 at the origin, and the state a click in its
    middle leaves when made in the initial state. *)
Definition slider100 : DOMRect :=
  {| rect_left := 0; rect_top := 0; rect_width := 100; rect_height := 20 |}.

Definition afterClick : State :=
  handleSliderClick (mkMouseEvent 50 10) (Some slider100) "3" initialState.

(** A slider whose bounding rectangle is empty (an element that is not
    laid out). *)
Definition emptyRect : DOMRect :=
  {| rect_left := 0; rect_top := 0; rect_width := 0; rect_height := 0 |}.

(** A stand-in for [Math.atan2] in degrees, for worked examples: exact on
    the axes and the diagonals; anywhere else it answers the diagonal of the
    quadrant. *)
Definition compassAtan2 (y x : Q) : Q :=
  match y ?= 0, x ?= 0 with
  | Eq, Lt => 180
  | Eq, _ => 0
  | Gt, Eq => 90
  | Lt, Eq => - (90)
  | Gt, Gt => 45
  | Gt, Lt => 135
  | Lt, Gt => - (45)
  | Lt, Lt => - (135)
  end.

(** A session: a click in the middle of the slider, a render, a press on
    the dial to the left of its centre, and the removal of the new stop. *)
Definition dial : DOMRect :=
  {| rect_left := 0; rect_top := 0; rect_width := 80; rect_height := 80 |}.

Definition session : list Event :=
  [ SliderClick (mkMouseEvent 50 10) (Some slider100) "3";
    Render;
    WheelMouseDown (mkMouseEvent 0 40) (Some dial);
    DocumentMouseUp;
    RemoveClick "3" ].

Definition afterSession : State :=
  fold_left (fun s ev => fst (step compassAtan2 ev s)) session initialState.

(* ================================================================== *)
(** ** The rest of the component, and observers                      *)
(* ================================================================== *)

(** [{colorStops.length > 2 && (<button ...>)}]: a stop's remove button is
    rendered only when the array holds more than two stops. *)
Definition removeButtonRendered (s : State) : bool :=
  (2 <? List.length (colorStops s))%nat.

(** [value={Math.round(stop.position)}]: what the numeric field of a stop
    shows. *)
Definition displayedPosition (stop : ColorStop) : JS.number :=
  JS.Math_round (position stop).

(** The first stop of the array that carries an identifier: the stop a
    handler's [stop.id === stopId] test meets first. *)
Definition findStop (stopId : string) (stops : list ColorStop)
    : option ColorStop :=
  find (fun stop => String.eqb (id stop) stopId) stops.

(** Events in sequence, the notifications dropped. *)
Definition runEvents (atan2_degrees : Q -> Q -> Q) (evs : list Event)
    (s : State) : State :=
  fold_left (fun s' ev => fst (step atan2_degrees ev s')) evs s.

(** A drag of a stop as the browser and the framework deliver it: the press
    on the handle, then pointer moves over the document, each followed by
    the render its state update causes, then the release. *)
Definition dragMoves (wheel : option DOMRect)
    (moves : list (MouseEvent * DOMRect)) : list Event :=
  flat_map
    (fun m => [DocumentMouseMove (fst m) (Some (snd m)) wheel; Render]) moves.

Definition dragGesture (stopId : string) (wheel : option DOMRect)
    (moves : list (MouseEvent * DOMRect)) : list Event :=
  StopMouseDown stopId :: dragMoves wheel moves ++ [DocumentMouseUp].

(** The position the last of a sequence of drag moves computes, [start]
    when there is none. *)
Definition finalPosition (start : JS.number)
    (moves : list (MouseEvent * DOMRect)) : JS.number :=
  fold_left (fun _ m => dragPosition (fst m) (snd m)) moves start.

(** What holds between two moves of a drag of [stop] begun in state [s],
    the stop being at position [p] in the current state [t]. *)
Definition dragging (stop : ColorStop) (s : State) (p : JS.number)
    (t : State) : Prop :=
  uniqueIds t
  /\ draggingStop t = Some (id stop)
  /\ isDraggingAngle t = false
  /\ angle t = angle s
  /\ findStop (id stop) (colorStops t) = Some (with_position stop p)
  /\ (forall j, j <> id stop ->
        findStop j (colorStops t) = findStop j (colorStops s)).

(** No drag is going on: neither document listener is attached. *)
Definition idle (s : State) : Prop :=
  truthy (draggingStop s) = false /\ isDraggingAngle s = false.

(** The events the document listeners receive. *)
Definition pointerOnly (ev : Event) : Prop :=
  match ev with
  | DocumentMouseMove _ _ _ | DocumentMouseUp => True
  | _ => False
  end.

(** The pointer lies between the edges of a rectangle of positive width. *)
Definition insideRect (e : MouseEvent) (rect : DOMRect) : Prop :=
  0 < rect_width rect
  /\ rect_left rect <= clientX e <= rect_left rect + rect_width rect.

(** The one geometry whose quotient is [0 / 0]. *)
Definition onEdgeOfEmpty (e : MouseEvent) (rect : DOMRect) : Prop :=
  rect_width rect == 0 /\ clientX e == rect_left rect.

(** Events whose geometry keeps positions in range: moves that are not on
    the edge of an empty rectangle, clicks inside the slider. *)
Definition wellPlaced (ev : Event) : Prop :=
  match ev with
  | DocumentMouseMove e (Some rect) _ => ~ onEdgeOfEmpty e rect
  | SliderClick e (Some rect) _ => insideRect e rect
  | _ => True
  end.

(** Distinct stops of a list have distinct positions. *)
Definition positionsIdentify (stops : list ColorStop) : Prop :=
  forall a b, In a stops -> In b stops ->
    JS.eq (position a) (position b) -> a = b.

(* ================================================================== *)
(** ** The order on numbers                                           *)
(* ================================================================== *)

Lemma Qle_bool_false (x y : Q) : Qle_bool x y = false <-> y < x.
Proof.
  split; intro H.
  - apply Qnot_le_lt. intro Hle. apply Qle_bool_iff in Hle. congruence.
  - destruct (Qle_bool x y) eqn:E; [|reflexivity].
    apply Qle_bool_iff in E. lra.
Qed.

Lemma le_Fin (x y : Q) : JS.le (JS.Fin x) (JS.Fin y) <-> x <= y.
Proof. unfold JS.le; simpl. apply Qle_bool_iff. Qed.

Lemma eq_Fin (x y : Q) : JS.eq (JS.Fin x) (JS.Fin y) <-> x == y.
Proof. unfold JS.eq; simpl. apply Qeq_bool_iff. Qed.

Lemma le_trans (a b c : JS.number) : JS.le a b -> JS.le b c -> JS.le a c.
Proof.
  destruct a, b, c; unfold JS.le; simpl; try congruence.
  rewrite !Qle_bool_iff. apply Qle_trans.
Qed.

Lemma lt_le (a b : JS.number) : JS.lt a b -> JS.le a b.
Proof.
  destruct a, b; unfold JS.lt, JS.le; simpl; try congruence.
  rewrite negb_true_iff, Qle_bool_false, Qle_bool_iff. lra.
Qed.

Lemma lt_le_absurd (a b : JS.number) : JS.lt b a -> JS.le a b -> False.
Proof.
  destruct a, b; unfold JS.lt, JS.le; simpl; try congruence.
  rewrite negb_true_iff, Qle_bool_false, Qle_bool_iff. lra.
Qed.

Lemma le_antisym (a b : JS.number) : JS.le a b -> JS.le b a -> JS.eq a b.
Proof.
  destruct a, b; unfold JS.le, JS.eq; simpl; try congruence.
  rewrite !Qle_bool_iff, Qeq_bool_iff. lra.
Qed.

(* ================================================================== *)
(** ** The sort                                                       *)
(* ================================================================== *)

Section SortFacts.
Context {A : Type}.
Variable comparefn : A -> A -> JS.number.

Lemma sort_insert_perm (x : A) (l : list A) :
  Permutation (JS.sort_insert comparefn x l) (x :: l).
Proof.
  induction l as [|y r IH]; simpl.
  - apply Permutation_refl.
  - destruct (JS.after comparefn x y).
    + eapply perm_trans; [apply perm_skip, IH | apply perm_swap].
    + apply Permutation_refl.
Qed.

Lemma Array_sort_perm (l : list A) :
  Permutation (JS.Array_sort comparefn l) l.
Proof.
  induction l as [|x r IH]; simpl.
  - apply perm_nil.
  - eapply perm_trans; [apply sort_insert_perm | apply perm_skip, IH].
Qed.

Lemma Array_sort_length (l : list A) :
  List.length (JS.Array_sort comparefn l) = List.length l.
Proof. apply Permutation_length, Array_sort_perm. Qed.


End SortFacts.

Lemma after_byPosition_true (a b : ColorStop) :
  JS.after byPosition a b = true -> JS.lt (position b) (position a).
Proof.
  unfold JS.after, JS.SortCompare, byPosition, JS.lt.
  destruct (position a) as [| | |x], (position b) as [| | |y];
    cbn [JS.sub JS.is_NaN JS.ltb JS.leb]; try congruence;
    try (cbv; congruence).
  rewrite !negb_true_iff, !Qle_bool_false.
  pose proof (Qred_correct (x - y)). lra.
Qed.

Lemma after_byPosition_false (a b : ColorStop) :
  JS.after byPosition a b = false ->
  hasPosition a -> hasPosition b -> positionLe a b.
Proof.
  unfold JS.after, JS.SortCompare, byPosition, hasPosition, positionLe, JS.le.
  destruct (position a) as [| | |x], (position b) as [| | |y];
    cbn [JS.sub JS.is_NaN JS.ltb JS.leb]; try congruence;
    try (cbv; congruence).
  rewrite negb_false_iff, !Qle_bool_iff.
  pose proof (Qred_correct (x - y)). lra.
Qed.

Lemma sort_insert_sorted (x : ColorStop) (l : list ColorStop) :
  hasPosition x -> Forall hasPosition l ->
  StronglySorted positionLe l ->
  StronglySorted positionLe (JS.sort_insert byPosition x l).
Proof.
  intros Hx Hl Hs.
  induction Hs as [|y r Hr IH Hy]; simpl.
  - constructor; constructor.
  - inversion Hl as [|? ? Py Pr]; subst.
    destruct (JS.after byPosition x y) eqn:E.
    + constructor; [apply IH; assumption|].
      apply (Permutation_Forall (Permutation_sym (sort_insert_perm _ x r))).
      constructor; [|assumption].
      apply lt_le, after_byPosition_true, E.
    + pose proof (after_byPosition_false _ _ E Hx Py) as Hxy.
      constructor; [constructor; assumption|].
      constructor; [assumption|].
      eapply Forall_impl; [|exact Hy].
      intros z Hz. unfold positionLe in *. eapply le_trans; eassumption.
Qed.

Lemma Array_sort_sorted (l : list ColorStop) :
  Forall hasPosition l ->
  StronglySorted positionLe (JS.Array_sort byPosition l).
Proof.
  induction 1 as [|x r Hx Hr IH]; simpl.
  - constructor.
  - apply sort_insert_sorted; [assumption| |assumption].
    apply (Permutation_Forall (Permutation_sym (Array_sort_perm byPosition r))).
    assumption.
Qed.



(* ================================================================== *)
(** ** Rendering: the order of the stops                              *)
(* ================================================================== *)

(** C1.  The rendered string lists the stops in non-decreasing order of
    position, whatever the order of the array: it is the rendering of a
    list that is a permutation of the stored stops and sorted by position.
    Stops given at positions 80, 10, 50 are listed in the order 10, 50, 80.
    (Positions are numbers: NaN has no place in an order.) *)
Theorem gradientString_position_order
    (numberToString : JS.number -> string) (s : State)
    (Hnum : Forall hasPosition (colorStops s)) :
  (exists listed,
      fst (gradientString numberToString s)
        = linearGradient numberToString (angle s) listed
      /\ Permutation listed (colorStops s)
      /\ StronglySorted positionLe listed)
  /\ (forall a c1 c2 c3 i1 i2 i3 d g,
        fst (gradientString numberToString
               (mkState a [stopAt c1 80 i1; stopAt c2 10 i2; stopAt c3 50 i3]
                  d g))
        = linearGradient numberToString a
            [stopAt c2 10 i2; stopAt c3 50 i3; stopAt c1 80 i1]).
Proof.
  split.
  - exists (JS.Array_sort byPosition (colorStops s)).
    split; [reflexivity|]. split.
    + apply Array_sort_perm.
    + apply Array_sort_sorted, Hnum.
  - intros. reflexivity.
Qed.

Lemma gradientString_position_order_witness :
  Forall hasPosition (colorStops threeStops)
  /\ fst (gradientString JS.showNumber threeStops)
     = "linear-gradient(90deg, #00FF00 10%, #0000FF 50%, #FF0000 80%)"%string.
Proof.
  assert (H : Forall hasPosition (colorStops threeStops)).
  { repeat constructor; discriminate. }
  split; [exact H|].
  destruct (gradientString_position_order JS.showNumber threeStops H)
    as [_ Hex].
  etransitivity.
  - exact (Hex (JS.Fin 90) "#FF0000" "#00FF00" "#0000FF" "a" "b" "c"
             None false)%string.
  - reflexivity.
Defined.

(** The earlier text of the component renders the stops in array order. *)
Remark earlier_gradientString_array_order :
  fst (Earlier.gradientString JS.showNumber threeStops)
  = "linear-gradient(90deg, #FF0000 80%, #00FF00 10%, #0000FF 50%)"%string.
Proof. reflexivity. Qed.

(* ================================================================== *)
(** ** Rendering: the effect on the stored array                      *)
(* ================================================================== *)

(** What one evaluation of [gradientString] leaves in the state cell. *)
Lemma gradientString_state (numberToString : JS.number -> string) (s : State) :
  snd (gradientString numberToString s) = sortColorStops s.
Proof. reflexivity. Qed.

(** C2.  Evaluating [gradientString] is not pure: [sort] works on the
    array of the state cell, which holds the stops in position order
    afterwards.  After a click in the middle of the slider the array holds
    the positions 0, 100, 50 in that order; once the string is computed it
    holds 0, 50, 100. *)
Theorem gradientString_reorders_stored_stops :
  map position (colorStops afterClick)
    = [JS.Fin 0; JS.Fin 100; JS.Fin 50]
  /\ map position (colorStops (snd (gradientString JS.showNumber afterClick)))
    = [JS.Fin 0; JS.Fin 50; JS.Fin 100]
  /\ colorStops (snd (gradientString JS.showNumber afterClick))
     <> colorStops afterClick.
Proof.
  split; [reflexivity|]. split; [reflexivity|].
  intro H. discriminate H.
Qed.

(* ================================================================== *)
(** ** Removing a stop                                                *)
(* ================================================================== *)

Lemma filter_all (A : Type) (f : A -> bool) (l : list A) :
  List.length (filter f l) = List.length l -> filter f l = l.
Proof.
  induction l as [|x r IH]; [reflexivity|].
  simpl. destruct (f x).
  - simpl. intro H. f_equal. apply IH. lia.
  - intro H. pose proof (filter_length_le f r). lia.
Qed.

Lemma withoutStop_absent (stopId : string) (l : list ColorStop) :
  ~ In stopId (map id l) -> withoutStop stopId l = l.
Proof.
  induction l as [|x r IH]; [reflexivity|].
  simpl. intro H.
  destruct (String.eqb_spec (id x) stopId) as [E|E].
  - exfalso. apply H. left. exact E.
  - simpl. f_equal. apply IH. intro Hin. apply H. right. exact Hin.
Qed.

(** With distinct identifiers, removal by identifier takes at most one
    stop away. *)
Lemma withoutStop_length (stopId : string) (l : list ColorStop) :
  NoDup (map id l) ->
  (List.length l <= S (List.length (withoutStop stopId l)))%nat.
Proof.
  induction l as [|x r IH]; simpl; [lia|].
  intro Hnd. inversion Hnd as [|? ? Hnotin Hr]; subst.
  destruct (String.eqb_spec (id x) stopId) as [E|E]; simpl.
  - subst stopId. rewrite withoutStop_absent by assumption. lia.
  - specialize (IH Hr). lia.
Qed.

Lemma setColorStops_same (s : State) (f : list ColorStop -> list ColorStop) :
  f (colorStops s) = colorStops s -> setColorStops f s = s.
Proof.
  destruct s as [a l d g]. unfold setColorStops. simpl.
  intro H. rewrite H. reflexivity.
Qed.

Lemma withoutStop_gone (stopId : string) (l : list ColorStop) :
  ~ In stopId (map id (withoutStop stopId l)).
Proof.
  intro H. apply in_map_iff in H. destruct H as [x [E Hin]].
  unfold withoutStop in Hin. apply filter_In in Hin. destruct Hin as [_ Hne].
  rewrite E, String.eqb_refl in Hne. discriminate Hne.
Qed.

Lemma withoutStop_present_length (stopId : string) (l : list ColorStop) :
  NoDup (map id l) -> In stopId (map id l) ->
  List.length l = S (List.length (withoutStop stopId l)).
Proof.
  induction l as [|x r IH]; simpl; [contradiction|].
  intros Hnd Hin. inversion Hnd as [|? ? Hnotin Hr]; subst.
  destruct (String.eqb_spec (id x) stopId) as [E|E]; simpl.
  - subst stopId. rewrite withoutStop_absent by assumption. reflexivity.
  - destruct Hin as [Hin|Hin]; [contradiction|].
    rewrite (IH Hr Hin). reflexivity.
Qed.

(** C3.  In a state with distinct identifiers: when the removal would leave
    fewer than two stops, [removeColorStop] raises the error notification
    and returns the state as it was; otherwise the stops of the resulting
    state are exactly the stops of the given state that carry another
    identifier, in their order, and the angle and the drag flags are kept.
    In that second case a removal that names a stop raises no notification
    and takes exactly one stop away; one that names no stop leaves the state
    as it was, and raises the notification when the array holds two
    stops. *)
Theorem removeColorStop_minimum (stopId : string) (s : State)
    (Hids : uniqueIds s) :
  ((List.length (withoutStop stopId (colorStops s)) < 2)%nat ->
     removeColorStop stopId s
     = (s, [toast_error "Minimum 2 color stops required"]))
  /\ ((2 <= List.length (withoutStop stopId (colorStops s)))%nat ->
        colorStops (fst (removeColorStop stopId s))
        = withoutStop stopId (colorStops s)
        /\ (forall stop,
              In stop (colorStops (fst (removeColorStop stopId s)))
              <-> In stop (colorStops s) /\ id stop <> stopId)
        /\ angle (fst (removeColorStop stopId s)) = angle s
        /\ draggingStop (fst (removeColorStop stopId s)) = draggingStop s
        /\ isDraggingAngle (fst (removeColorStop stopId s))
           = isDraggingAngle s
        /\ (In stopId (map id (colorStops s)) ->
              snd (removeColorStop stopId s) = []
              /\ List.length (colorStops s)
                 = S (List.length
                        (colorStops (fst (removeColorStop stopId s)))))
        /\ (~ In stopId (map id (colorStops s)) ->
              fst (removeColorStop stopId s) = s
              /\ (snd (removeColorStop stopId s)
                  = [toast_error "Minimum 2 color stops required"]
                  <-> List.length (colorStops s) = 2%nat))).
Proof.
  pose proof (withoutStop_length stopId (colorStops s) Hids) as Hlen.
  pose proof (filter_length_le
                (fun stop => negb (String.eqb (id stop) stopId))
                (colorStops s)) as Hle.
  fold (withoutStop stopId (colorStops s)) in Hle.
  assert (Hmember : forall stop,
            In stop (withoutStop stopId (colorStops s))
            <-> In stop (colorStops s) /\ id stop <> stopId).
  { intro stop. unfold withoutStop. rewrite filter_In, negb_true_iff.
    rewrite String.eqb_neq. reflexivity. }
  unfold removeColorStop.
  destruct (Nat.leb_spec (List.length (colorStops s)) 2) as [Hsmall|Hbig];
    cbn [fst snd].
  - split; [reflexivity|].
    intro H2.
    assert (Hall : withoutStop stopId (colorStops s) = colorStops s).
    { apply filter_all. fold (withoutStop stopId (colorStops s)). lia. }
    assert (Habsent : ~ In stopId (map id (colorStops s))).
    { rewrite <- Hall. apply withoutStop_gone. }
    split; [symmetry; exact Hall|].
    split; [intro stop; rewrite <- Hall at 1; apply Hmember|].
    repeat (split; [reflexivity|]).
    split; [intro Hin; contradiction|].
    intros _. split; [reflexivity|].
    split; [intros _; rewrite <- Hall at 1; lia | reflexivity].
  - split; [lia|]. intros _.
    change (colorStops
              (setColorStops
                 (filter (fun stop => negb (String.eqb (id stop) stopId))) s))
      with (withoutStop stopId (colorStops s)).
    split; [reflexivity|]. split; [exact Hmember|].
    repeat (split; [reflexivity|]).
    split.
    + intro Hin. split; [reflexivity|].
      apply withoutStop_present_length; assumption.
    + intro Habsent. split.
      * apply setColorStops_same. apply (withoutStop_absent stopId), Habsent.
      * split; [discriminate | lia].
Qed.

Lemma removeColorStop_minimum_witness :
  uniqueIds initialState
  /\ removeColorStop "1" initialState
     = (initialState, [toast_error "Minimum 2 color stops required"])
  /\ uniqueIds afterClick
  /\ map id (colorStops (fst (removeColorStop "3" afterClick)))
     = ["1"; "2"]%string
  /\ snd (removeColorStop "3" afterClick) = [].
Proof.
  assert (H0 : uniqueIds initialState).
  { unfold uniqueIds. simpl. repeat constructor; simpl; intuition discriminate. }
  assert (H1 : uniqueIds afterClick).
  { unfold uniqueIds. simpl. repeat constructor; simpl; intuition discriminate. }
  split; [exact H0|]. split.
  - apply (removeColorStop_minimum "1" initialState H0). simpl. lia.
  - split; [exact H1|].
    destruct (proj2 (removeColorStop_minimum "3" afterClick H1))
      as [Hstops [_ [_ [_ [_ [Hnamed _]]]]]]; [simpl; lia|].
    split.
    + rewrite Hstops. reflexivity.
    + apply Hnamed. simpl. right. right. left. reflexivity.
Defined.

(** The notification is raised exactly when the array holds two stops or
    fewer, whether or not [stopId] names one of them. *)
Lemma removeColorStop_toast (stopId : string) (s : State) :
  snd (removeColorStop stopId s)
  = if (List.length (colorStops s) <=? 2)%nat
    then [toast_error "Minimum 2 color stops required"] else [].
Proof.
  unfold removeColorStop.
  destruct (List.length (colorStops s) <=? 2)%nat; reflexivity.
Qed.

(* ================================================================== *)
(** ** At least two stops                                             *)
(* ================================================================== *)

Section Invariant.
Variable atan2_degrees : Q -> Q -> Q.

Lemma handleAngleChange_stops (e : MouseEvent) (w : option DOMRect) (s : State) :
  colorStops (handleAngleChange atan2_degrees e w s) = colorStops s.
Proof. destruct w; reflexivity. Qed.

Lemma handleStopDrag_length (e : MouseEvent) (r : option DOMRect)
    (stopId : string) (s : State) :
  List.length (colorStops (handleStopDrag e r stopId s))
  = List.length (colorStops s).
Proof. destruct r; simpl; [apply length_map | reflexivity]. Qed.

Lemma handleColorChange_length (c stopId : string) (s : State) :
  List.length (colorStops (handleColorChange c stopId s))
  = List.length (colorStops s).
Proof. simpl. apply length_map. Qed.

Lemma handleSliderClick_length (e : MouseEvent) (r : option DOMRect)
    (newId : string) (s : State) :
  (List.length (colorStops s)
   <= List.length (colorStops (handleSliderClick e r newId s)))%nat.
Proof.
  unfold handleSliderClick. destruct r; [|lia].
  destruct (truthy (draggingStop s)); simpl; [lia|].
  rewrite length_app. simpl. lia.
Qed.

Lemma removeColorStop_length (stopId : string) (s : State) :
  (2 <= List.length (colorStops s))%nat ->
  uniqueIds s ->
  (2 <= List.length (colorStops (fst (removeColorStop stopId s))))%nat.
Proof.
  intros H2 Hids. unfold removeColorStop.
  destruct (Nat.leb_spec (List.length (colorStops s)) 2) as [Hs|Hb]; simpl.
  - exact H2.
  - pose proof (withoutStop_length stopId (colorStops s) Hids) as Hlen.
    unfold withoutStop in Hlen. lia.
Qed.
End Invariant.

Section Reachable.
Variable atan2_degrees : Q -> Q -> Q.

Lemma map_id_update (f : ColorStop -> ColorStop) (l : list ColorStop) :
  (forall stop, id (f stop) = id stop) -> map id (map f l) = map id l.
Proof.
  intro H. rewrite map_map. apply map_ext. exact H.
Qed.

Lemma handleStopDrag_ids (e : MouseEvent) (r : option DOMRect)
    (stopId : string) (s : State) :
  map id (colorStops (handleStopDrag e r stopId s)) = map id (colorStops s).
Proof.
  destruct r; [|reflexivity]. simpl. apply map_id_update.
  intro stop. destruct (String.eqb (id stop) stopId); reflexivity.
Qed.

Lemma handleColorChange_ids (c stopId : string) (s : State) :
  map id (colorStops (handleColorChange c stopId s)) = map id (colorStops s).
Proof.
  simpl. apply map_id_update.
  intro stop. destruct (String.eqb (id stop) stopId); reflexivity.
Qed.

Lemma withoutStop_ids (stopId : string) (l : list ColorStop) :
  NoDup (map id l) -> NoDup (map id (withoutStop stopId l)).
Proof.
  induction l as [|x r IH]; simpl; [intros; constructor|].
  intro Hnd. inversion Hnd as [|? ? Hnotin Hr]; subst.
  destruct (negb (String.eqb (id x) stopId)); simpl; [|apply IH, Hr].
  constructor; [|apply IH, Hr].
  intro Hin. apply Hnotin.
  apply in_map_iff in Hin. destruct Hin as [y [Hy Hin]].
  apply in_map_iff. exists y. split; [exact Hy|].
  unfold withoutStop in Hin. apply filter_In in Hin. apply Hin.
Qed.

(** Every event an admissible click or any other keeps the identifiers
    distinct. *)
Lemma step_uniqueIds (ev : Event) (s : State) :
  uniqueIds s -> admissible ev s ->
  uniqueIds (fst (step atan2_degrees ev s)).
Proof.
  unfold uniqueIds. intros Hids Hadm.
  destruct ev as [ |stopId|e w|e sl w| |e sl newId|c stopId|v stop|stopId| ];
    cbn [step fst admissible] in *.
  - simpl. eapply Permutation_NoDup; [|exact Hids].
    apply Permutation_map, Permutation_sym, Array_sort_perm.
  - exact Hids.
  - rewrite handleAngleChange_stops. exact Hids.
  - destruct (draggingStop s) as [d|] eqn:Ed.
    + destruct (truthy (Some d)).
      * rewrite handleStopDrag_ids.
        destruct (isDraggingAngle s);
          [rewrite handleAngleChange_stops|]; exact Hids.
      * destruct (isDraggingAngle s);
          [rewrite handleAngleChange_stops|]; exact Hids.
    + destruct (isDraggingAngle s);
        [rewrite handleAngleChange_stops|]; exact Hids.
  - destruct (truthy (draggingStop s)), (isDraggingAngle s); exact Hids.
  - unfold handleSliderClick. destruct sl as [rect|]; [|exact Hids].
    destruct (truthy (draggingStop s)); [exact Hids|].
    simpl. rewrite map_app. simpl.
    eapply Permutation_NoDup; [apply Permutation_cons_append|].
    constructor; assumption.
  - rewrite (handleColorChange_ids c stopId s). exact Hids.
  - unfold positionInputChange.
    rewrite (handleColorChange_ids (color stop) (id stop) s). exact Hids.
  - unfold removeColorStop.
    destruct (List.length (colorStops s) <=? 2)%nat; simpl; [exact Hids|].
    apply (withoutStop_ids stopId), Hids.
  - exact Hids.
Qed.

(** Every event keeps at least two stops where there were at least two,
    given distinct identifiers. *)
Lemma step_two_stops (ev : Event) (s : State) :
  uniqueIds s -> (2 <= List.length (colorStops s))%nat ->
  (2 <= List.length (colorStops (fst (step atan2_degrees ev s))))%nat.
Proof.
  intros Hids H2.
  destruct ev as [ |stopId|e w|e sl w| |e sl newId|c stopId|v stop|stopId| ];
    cbn [step fst admissible] in *.
  - simpl. rewrite Array_sort_length. exact H2.
  - exact H2.
  - rewrite handleAngleChange_stops. exact H2.
  - assert (Ha : forall b : bool,
              List.length (colorStops
                (if b then handleAngleChange atan2_degrees e w s else s))
              = List.length (colorStops s)).
    { intros [|]; [rewrite handleAngleChange_stops|]; reflexivity. }
    destruct (draggingStop s) as [d|].
    + destruct (truthy (Some d)).
      * rewrite handleStopDrag_length, Ha. exact H2.
      * rewrite Ha. exact H2.
    + rewrite Ha. exact H2.
  - destruct (truthy (draggingStop s)), (isDraggingAngle s); exact H2.
  - pose proof (handleSliderClick_length e sl newId s). lia.
  - rewrite (handleColorChange_length c stopId s). exact H2.
  - unfold positionInputChange.
    rewrite (handleColorChange_length (color stop) (id stop) s). exact H2.
  - apply removeColorStop_length; assumption.
  - exact H2.
Qed.

Lemma reachable_uniqueIds (s : State) :
  reachable atan2_degrees s -> uniqueIds s.
Proof.
  induction 1 as [|ev s Hr IH Hadm].
  - unfold uniqueIds. simpl. repeat constructor; simpl; intuition discriminate.
  - apply step_uniqueIds; assumption.
Qed.
End Reachable.

(** C4.  The initial state has exactly two stops, and every state reached
    from it by the component's operations (angle changes, clicks that add a
    stop, colour and position updates, removals, renders) has at least
    two. *)
Theorem at_least_two_stops (atan2_degrees : Q -> Q -> Q) (s : State)
    (Hreach : reachable atan2_degrees s) :
  List.length (colorStops initialState) = 2%nat
  /\ (2 <= List.length (colorStops s))%nat.
Proof.
  split; [reflexivity|].
  induction Hreach as [|ev s Hr IH Hadm].
  - simpl. lia.
  - apply step_two_stops; [|exact IH].
    apply (reachable_uniqueIds atan2_degrees), Hr.
Qed.

Lemma at_least_two_stops_witness :
  reachable compassAtan2 afterSession
  /\ (2 <= List.length (colorStops afterSession))%nat.
Proof.
  assert (H : reachable compassAtan2 afterSession).
  { unfold afterSession, session. cbn [fold_left].
    repeat (apply reachable_step; [|try exact I]).
    - apply reachable_initial.
    - simpl. intuition discriminate. }
  split; [exact H|].
  apply (at_least_two_stops compassAtan2 afterSession H).
Defined.

(* ================================================================== *)
(** ** The angle                                                      *)
(* ================================================================== *)

Lemma inject_Z_succ (z : Z) : inject_Z (z + 1) == inject_Z z + 1.
Proof. rewrite inject_Z_plus. reflexivity. Qed.

Lemma inject_Z_pred (z : Z) : inject_Z (z - 1) == inject_Z z - 1.
Proof.
  unfold Z.sub. rewrite inject_Z_plus, inject_Z_opp. reflexivity.
Qed.

Lemma Qfloor_unique (x : Q) (z : Z) :
  inject_Z z <= x -> x < inject_Z z + 1 -> Qfloor x = z.
Proof.
  intros Hlo Hhi.
  pose proof (Qfloor_le x) as Fl.
  pose proof (Qlt_floor x) as Fh.
  rewrite inject_Z_succ in Fh.
  assert (H1 : inject_Z z < inject_Z (Qfloor x + 1)).
  { rewrite inject_Z_succ. lra. }
  assert (H2 : inject_Z (Qfloor x) < inject_Z (z + 1)).
  { rewrite inject_Z_succ. lra. }
  rewrite <- Zlt_Qlt in H1, H2. lia.
Qed.

Lemma Qfloor_bounds (x : Q) :
  inject_Z (Qfloor x) <= x /\ x < inject_Z (Qfloor x) + 1.
Proof.
  split; [apply Qfloor_le|].
  pose proof (Qlt_floor x) as Fh.
  rewrite inject_Z_succ in Fh. exact Fh.
Qed.

Lemma Qceiling_bounds (x : Q) :
  inject_Z (Qceiling x) - 1 < x /\ x <= inject_Z (Qceiling x).
Proof.
  split; [|apply Qle_ceiling].
  pose proof (Qceiling_lt x) as Fh.
  rewrite inject_Z_pred in Fh. exact Fh.
Qed.

(** [a % 360] differs from [a] by a multiple of 360 and lies strictly
    between -360 and 360. *)
Lemma Qrem_360 (a : Q) :
  exists t : Z,
    JS.Qrem a 360 == a - 360 * inject_Z t
    /\ - (360) < JS.Qrem a 360 < 360
    /\ (0 <= a -> 0 <= JS.Qrem a 360).
Proof.
  unfold JS.Qrem. exists (JS.Qtrunc (a / 360)).
  split; [reflexivity|].
  assert (Hy : a == 360 * (a / 360)) by (field).
  unfold JS.Qtrunc.
  destruct (Qle_bool 0 (a / 360)) eqn:E.
  - apply Qle_bool_iff in E.
    destruct (Qfloor_bounds (a / 360)) as [Fl Fh].
    assert (H0 : 0 <= inject_Z (Qfloor (a / 360))).
    { change 0 with (inject_Z 0). rewrite <- Zle_Qle.
      change 0%Z with (Qfloor 0). apply Qfloor_resp_le, E. }
    repeat split; try lra.
  - apply Qle_bool_false in E.
    destruct (Qceiling_bounds (a / 360)) as [Fl Fh].
    repeat split; try lra.
Qed.

(** The normalised angle is [a] reduced modulo 360 into [[0, 360)]. *)
Lemma normalizeAngle_floor (a : Q) :
  normalizeAngle a == a - 360 * inject_Z (Qfloor (a / 360)).
Proof.
  unfold normalizeAngle.
  destruct (Qrem_360 a) as [t [Ht [[Hlo Hhi] _]]].
  set (r := JS.Qrem a 360) in *.
  assert (Hp : 0 <= r + 360) by lra.
  destruct (Qrem_360 (r + 360)) as [u [Hu [[_ Hhi2] Hpos]]].
  specialize (Hpos Hp).
  set (n := JS.Qrem (r + 360) 360) in *.
  assert (Hm : Qfloor (a / 360) = (t + u - 1)%Z).
  { apply Qfloor_unique.
    - rewrite inject_Z_pred, inject_Z_plus.
      assert (Ha : a == 360 * (a / 360)) by field. lra.
    - rewrite inject_Z_pred, inject_Z_plus.
      assert (Ha : a == 360 * (a / 360)) by field. lra. }
  rewrite Hm, inject_Z_pred, inject_Z_plus. lra.
Qed.

Lemma normalizeAngle_range (a : Q) : 0 <= normalizeAngle a < 360.
Proof.
  rewrite normalizeAngle_floor.
  destruct (Qfloor_bounds (a / 360)) as [Fl Fh].
  assert (Ha : a == 360 * (a / 360)) by field. lra.
Qed.

Lemma normalizeAngle_periodic (a : Q) (k : Z) :
  normalizeAngle (a + 360 * inject_Z k) == normalizeAngle a.
Proof.
  rewrite !normalizeAngle_floor.
  assert (Hf : Qfloor ((a + 360 * inject_Z k) / 360)
               = (Qfloor (a / 360) + k)%Z).
  { apply Qfloor_unique.
    - destruct (Qfloor_bounds (a / 360)) as [Fl Fh].
      rewrite inject_Z_plus.
      assert (Ha : (a + 360 * inject_Z k) / 360 == a / 360 + inject_Z k)
        by field.
      lra.
    - destruct (Qfloor_bounds (a / 360)) as [Fl Fh].
      rewrite inject_Z_plus.
      assert (Ha : (a + 360 * inject_Z k) / 360 == a / 360 + inject_Z k)
        by field.
      lra. }
  rewrite Hf, inject_Z_plus. lra.
Qed.

(** The stored angle is an integer of [[0, 360]]; it is 360 exactly when
    the normalised angle is 359.5 or more. *)
Lemma storedAngle_range (a : Q) : (0 <= storedAngle a <= 360)%Z.
Proof.
  unfold storedAngle, JS.Qround.
  destruct (normalizeAngle_range a) as [Hlo Hhi].
  set (r := normalizeAngle a) in *.
  destruct (Qfloor_bounds (r + (1 # 2))) as [Fl Fh].
  split.
  - change 0%Z with (Qfloor 0). apply Qfloor_resp_le. lra.
  - assert (H : inject_Z (Qfloor (r + (1 # 2))) < inject_Z 361).
    { change (inject_Z 361) with 361. lra. }
    rewrite <- Zlt_Qlt in H. lia.
Qed.

Lemma storedAngle_360 (a : Q) :
  storedAngle a = 360%Z <-> (719 # 2) <= normalizeAngle a.
Proof.
  unfold storedAngle, JS.Qround.
  destruct (normalizeAngle_range a) as [Hlo Hhi].
  set (r := normalizeAngle a) in *.
  destruct (Qfloor_bounds (r + (1 # 2))) as [Fl Fh].
  split.
  - intro H. rewrite H in Fl. change (inject_Z 360) with 360 in Fl. lra.
  - intro H. apply Qfloor_unique; change (inject_Z 360) with 360; lra.
Qed.

Lemma storedAngle_periodic (a : Q) (k : Z) :
  storedAngle (a + 360 * inject_Z k) = storedAngle a.
Proof.
  unfold storedAngle, JS.Qround.
  apply Qfloor_comp. rewrite normalizeAngle_periodic. reflexivity.
Qed.

(** [handleAngleChange] stores [storedAngle] of the pointer's raw angle. *)
Lemma handleAngleChange_angle (atan2_degrees : Q -> Q -> Q)
    (e : MouseEvent) (rect : DOMRect) (s : State) :
  angle (handleAngleChange atan2_degrees e (Some rect) s)
  = JS.Fin (inject_Z (storedAngle (pointerAngle atan2_degrees e rect))).
Proof. reflexivity. Qed.

Lemma normalizeAngle_just_below_zero (a : Q) :
  - (1 # 2) <= a -> a < 0 -> (719 # 2) <= normalizeAngle a.
Proof.
  intros Hlo Hhi. rewrite normalizeAngle_floor.
  assert (Hf : Qfloor (a / 360) = (-1)%Z).
  { assert (Ha : a == 360 * (a / 360)) by field.
    apply Qfloor_unique.
    - change (inject_Z (-1)) with (- (1)). lra.
    - change (inject_Z (-1)) with (- (1)). lra. }
  rewrite Hf. change (inject_Z (-1)) with (- (1)). lra.
Qed.

(** A pointer up to half a degree to the left of "straight up" makes the
    dial store 360. *)
Lemma handleAngleChange_360 (atan2_degrees : Q -> Q -> Q)
    (e : MouseEvent) (rect : DOMRect) (s : State) :
  - (1 # 2) <= pointerAngle atan2_degrees e rect ->
  pointerAngle atan2_degrees e rect < 0 ->
  angle (handleAngleChange atan2_degrees e (Some rect) s) = JS.Fin 360.
Proof.
  intros Hlo Hhi. rewrite handleAngleChange_angle.
  replace (storedAngle (pointerAngle atan2_degrees e rect)) with 360%Z;
    [reflexivity|].
  symmetry. apply storedAngle_360, normalizeAngle_just_below_zero; assumption.
Qed.

(** C5.  The stored angle leaves [[0, 360)]: for the raw angle [-1/4] (the
    pointer a quarter of a degree to the left of "straight up") the
    normalised angle is [359.75], and the handler rounds it after
    normalising and stores 360. *)
Theorem storedAngle_reaches_360 :
  normalizeAngle (- (1 # 4)) == 1439 # 4
  /\ storedAngle (- (1 # 4)) = 360%Z
  /\ ~ (storedAngle (- (1 # 4)) < 360)%Z.
Proof.
  split; [reflexivity|]. split; [reflexivity|].
  intro H. vm_compute in H. discriminate H.
Qed.

(** The earlier text of the component does not normalise: a pointer to the
    upper left of the centre of the dial makes it store -45. *)
Remark earlier_handleAngleWheel_negative :
  angle (Earlier.handleAngleWheel compassAtan2 (mkMouseEvent 0 0) (Some dial)
           initialState)
  = JS.Fin (- (45)).
Proof. reflexivity. Qed.

(* ================================================================== *)
(** ** From the pointer to a percentage                               *)
(* ================================================================== *)

(** With a width other than zero, [dragPosition] is the specification's
    [pointerToPercent]. *)
Lemma dragPosition_pointerToPercent (e : MouseEvent) (rect : DOMRect) :
  ~ rect_width rect == 0 ->
  exists v,
    dragPosition e rect = JS.Fin v
    /\ v == pointerToPercent (clientX e) (rect_left rect) (rect_width rect).
Proof.
  intro Hw. unfold dragPosition, pointerToPercent, clamp.
  set (x := clientX e - rect_left rect).
  set (w := rect_width rect) in *.
  assert (Hd : (JS.Fin x / JS.Fin w)%js = JS.Fin (Qred (x / w))).
  { unfold JS.div. destruct (w ?= 0) eqn:Hc; try reflexivity.
    apply Qeq_alt in Hc. contradiction. }
  rewrite Hd. cbn [JS.mul].
  set (v0 := Qred (Qred (x / w) * 100)).
  assert (Hv0 : v0 == x / w * 100).
  { unfold v0. rewrite !Qred_correct. reflexivity. }
  unfold JS.Math_min. cbn [JS.leb].
  destruct (Qle_bool 100 v0) eqn:E100.
  - unfold JS.Math_max. cbn [JS.leb].
    exists 100. split; [reflexivity|].
    apply Qle_bool_iff in E100.
    destruct (Qle_bool (x / w * 100) 0) eqn:E0.
    + apply Qle_bool_iff in E0. lra.
    + destruct (Qle_bool 100 (x / w * 100)) eqn:E1; [reflexivity|].
      apply Qle_bool_false in E1. lra.
  - apply Qle_bool_false in E100.
    unfold JS.Math_max. cbn [JS.leb].
    destruct (Qle_bool 0 v0) eqn:Epos.
    + exists v0. split; [reflexivity|].
      apply Qle_bool_iff in Epos.
      destruct (Qle_bool (x / w * 100) 0) eqn:E0.
      * apply Qle_bool_iff in E0. lra.
      * destruct (Qle_bool 100 (x / w * 100)) eqn:E1; [|exact Hv0].
        apply Qle_bool_iff in E1. lra.
    + exists 0. split; [reflexivity|].
      apply Qle_bool_false in Epos.
      destruct (Qle_bool (x / w * 100) 0) eqn:E0; [reflexivity|].
      apply Qle_bool_false in E0. lra.
Qed.

(** With a width of zero the quotient is an infinity or NaN, and the clamp
    turns it into 100, 0 or NaN. *)
Lemma dragPosition_zero_width (e : MouseEvent) (rect : DOMRect) :
  rect_width rect == 0 ->
  dragPosition e rect
  = match clientX e ?= rect_left rect with
    | Gt => JS.Fin 100
    | Lt => JS.Fin 0
    | Eq => JS.NaN
    end.
Proof.
  intro Hw. unfold dragPosition.
  set (x := clientX e - rect_left rect).
  assert (Hc : (rect_width rect ?= 0) = Eq) by (apply Qeq_alt; exact Hw).
  assert (Hx : (x ?= 0) = (clientX e ?= rect_left rect)).
  { unfold x. destruct (clientX e ?= rect_left rect) eqn:E.
    - apply Qeq_alt in E. apply (proj1 (Qeq_alt _ _)). lra.
    - apply Qlt_alt in E. apply (proj1 (Qlt_alt _ _)). lra.
    - apply Qgt_alt in E. apply (proj1 (Qgt_alt _ _)). lra. }
  unfold JS.div. rewrite Hc, Hx.
  destruct (clientX e ?= rect_left rect); reflexivity.
Qed.

Lemma clamp_range (v : Q) : 0 <= clamp v 0 100 <= 100.
Proof.
  unfold clamp.
  destruct (Qle_bool v 0) eqn:E0; [lra|].
  destruct (Qle_bool 100 v) eqn:E1; [lra|].
  apply Qle_bool_false in E0, E1. lra.
Qed.

(** The quotient [(px - l) / w * 100] for a positive width: its sign, its
    comparison with 100 and its growth with [px]. *)
Lemma percent_facts (l w : Q) :
  0 < w ->
  (forall p q, p <= q -> (p - l) / w * 100 <= (q - l) / w * 100)
  /\ (forall p, (p - l) / w * 100 <= 0 <-> p <= l)
  /\ (forall p, 100 <= (p - l) / w * 100 <-> l + w <= p).
Proof.
  intro Hw.
  assert (Hi : 0 < / w) by (apply Qinv_lt_0_compat, Hw).
  assert (Hwi : w * / w == 1) by (apply Qmult_inv_r; lra).
  assert (Hscale : forall d, 0 <= d <-> 0 <= d * / w).
  { intro d. split; intro H.
    - apply Qmult_le_0_compat; lra.
    - destruct (Qlt_le_dec d 0) as [Hneg|]; [|assumption].
      assert (Hp : 0 < (- d) * / w) by (apply Qmult_lt_0_compat; lra).
      lra. }
  repeat split.
  - intros p q Hpq.
    assert (He : (q - l) / w * 100 - (p - l) / w * 100
                 == (q - p) * / w * 100) by (unfold Qdiv; ring).
    pose proof (proj1 (Hscale (q - p))). lra.
  - intro H.
    assert (He : (p - l) / w * 100 == - ((l - p) * / w) * 100)
      by (unfold Qdiv; ring).
    assert (H0 : 0 <= (l - p) * / w) by lra.
    apply Hscale in H0. lra.
  - intro H.
    assert (He : (p - l) / w * 100 == - ((l - p) * / w) * 100)
      by (unfold Qdiv; ring).
    assert (H0 : 0 <= l - p) by lra.
    apply Hscale in H0. lra.
  - intro H.
    assert (He : (p - l) / w * 100 - 100 == (p - l - w) * / w * 100).
    { unfold Qdiv. setoid_replace 100 with (100 * (w * / w)) at 2
        by (rewrite Hwi; ring). ring. }
    assert (H0 : 0 <= (p - l - w) * / w) by lra.
    apply Hscale in H0. lra.
  - intro H.
    assert (He : (p - l) / w * 100 - 100 == (p - l - w) * / w * 100).
    { unfold Qdiv. setoid_replace 100 with (100 * (w * / w)) at 2
        by (rewrite Hwi; ring). ring. }
    assert (H0 : 0 <= p - l - w) by lra.
    apply Hscale in H0. lra.
Qed.

(* ================================================================== *)
(** ** Rounding to binary64                                           *)
(* ================================================================== *)

Lemma pow2_pos (z : Z) : 0 < 2 ^ z.
Proof. apply Qpower_0_lt. reflexivity. Qed.

Lemma pow2_succ (z : Z) : 2 ^ (z + 1) == 2 * 2 ^ z.
Proof.
  rewrite Qpower_plus by discriminate. change (2 ^ 1) with 2. ring.
Qed.

Lemma pow2_pred (z : Z) : 2 * 2 ^ (z - 1) == 2 ^ z.
Proof.
  rewrite <- pow2_succ. replace (z - 1 + 1)%Z with z by ring. reflexivity.
Qed.

Lemma pow2_le (n m : Z) : (n <= m)%Z -> 2 ^ n <= 2 ^ m.
Proof. intro H. apply Qpower_le_compat_l; [exact H|discriminate]. Qed.

(** The binade of a positive rational. *)
Lemma Qlog2_spec (m : Q) :
  0 < m -> 2 ^ Qlog2 m <= m /\ m < 2 ^ (Qlog2 m + 1).
Proof.
  intro Hm. unfold Qlog2.
  destruct m as [n d]. simpl Qnum. simpl Qden.
  assert (Hn : (0 < n)%Z).
  { unfold Qlt in Hm. simpl in Hm. lia. }
  set (a := Z.log2 n). set (b := Z.log2 (Z.pos d)).
  assert (Ha0 : (0 <= a)%Z) by apply Z.log2_nonneg.
  assert (Hb0 : (0 <= b)%Z) by apply Z.log2_nonneg.
  destruct (Z.log2_spec n Hn) as [Ha1 Ha2]. fold a in Ha1, Ha2.
  destruct (Z.log2_spec (Z.pos d) (Pos2Z.is_pos d)) as [Hb1 Hb2].
  fold b in Hb1, Hb2.
  assert (HA : 2 ^ a <= inject_Z n /\ inject_Z n < 2 * 2 ^ a).
  { change 2 with (inject_Z 2) at 1 3. rewrite <- Zpower_Qpower by exact Ha0.
    split.
    - rewrite <- Zle_Qle. exact Ha1.
    - change 2 with (inject_Z 2) at 1. rewrite <- inject_Z_mult, <- Zlt_Qlt.
      rewrite Z.pow_succ_r in Ha2 by exact Ha0. exact Ha2. }
  assert (HB : 2 ^ b <= inject_Z (Z.pos d) /\ inject_Z (Z.pos d) < 2 * 2 ^ b).
  { change 2 with (inject_Z 2) at 1 3. rewrite <- Zpower_Qpower by exact Hb0.
    split.
    - rewrite <- Zle_Qle. exact Hb1.
    - change 2 with (inject_Z 2) at 1. rewrite <- inject_Z_mult, <- Zlt_Qlt.
      rewrite Z.pow_succ_r in Hb2 by exact Hb0. exact Hb2. }
  set (q := n # d) in *.
  assert (Hq : q * inject_Z (Z.pos d) == inject_Z n).
  { unfold q. rewrite Qmake_Qdiv. field.
    intro H. pose proof (Pos2Z.is_pos d).
    change 0 with (inject_Z 0) in H. apply (proj1 (inject_Z_injective _ _)) in H.
    lia. }
  set (c := (a - b)%Z).
  assert (Hc : 2 ^ c * 2 ^ b == 2 ^ a).
  { rewrite <- Qpower_plus by discriminate.
    replace (c + b)%Z with a by (unfold c; ring). reflexivity. }
  pose proof (pow2_pos a) as Pa. pose proof (pow2_pos b) as Pb.
  pose proof (pow2_pos c) as Pc.
  set (A := 2 ^ a) in *. set (B := 2 ^ b) in *. set (C := 2 ^ c) in *.
  set (N := inject_Z n) in *. set (D := inject_Z (Z.pos d)) in *.
  assert (Hup : q < 2 * C).
  { apply (Qmult_lt_r _ _ D); [lra|].
    assert (E : 2 * C * D == 2 * (C * B) + 2 * C * (D - B)) by ring.
    assert (0 <= 2 * C * (D - B)).
    { apply Qmult_le_0_compat; [|lra].
      apply Qmult_le_0_compat; lra. }
    lra. }
  assert (Hlow : C < 2 * q).
  { apply (Qmult_lt_r _ _ D); [lra|].
    assert (E : C * D == C * B + C * (D - B)) by ring.
    assert (C * (D - B) < C * B).
    { apply Qmult_lt_l; lra. }
    lra. }
  destruct (Qle_bool C q) eqn:E.
  - apply Qle_bool_iff in E. rewrite pow2_succ. fold C. split; lra.
  - apply Qle_bool_false in E.
    replace (c - 1 + 1)%Z with c by ring. fold C.
    pose proof (pow2_pred c) as Hp. fold C in Hp. split; lra.
Qed.

Lemma Qlog2_monotone (x y : Q) : 0 < x -> x <= y -> (Qlog2 x <= Qlog2 y)%Z.
Proof.
  intros Hx Hxy.
  destruct (Qlog2_spec x Hx) as [Lx _].
  destruct (Qlog2_spec y) as [_ Uy]; [lra|].
  assert (H : 2 ^ Qlog2 x < 2 ^ (Qlog2 y + 1)) by lra.
  apply Qpower_lt_compat_l_inv in H; [lia|reflexivity].
Qed.

Lemma nearestEven_bounds (t : Q) :
  (Qfloor t <= nearestEven t <= Qfloor t + 1)%Z.
Proof.
  unfold nearestEven.
  destruct (t - inject_Z (Qfloor t) ?= 1 # 2); [|lia|lia].
  destruct (Z.even (Qfloor t)); lia.
Qed.

Lemma nearestEven_monotone (t u : Q) :
  t <= u -> (nearestEven t <= nearestEven u)%Z.
Proof.
  intro H.
  pose proof (Qfloor_resp_le _ _ H) as Hf.
  destruct (Z.eq_dec (Qfloor t) (Qfloor u)) as [E|E].
  - unfold nearestEven. rewrite E.
    destruct (t - inject_Z (Qfloor u) ?= 1 # 2) eqn:Ct;
      destruct (u - inject_Z (Qfloor u) ?= 1 # 2) eqn:Cu;
      try (destruct (Z.even (Qfloor u))); try lia;
      repeat match goal with
        | C : (_ ?= _) = Eq |- _ => apply Qeq_alt in C
        | C : (_ ?= _) = Lt |- _ => apply Qlt_alt in C
        | C : (_ ?= _) = Gt |- _ => apply Qgt_alt in C
        end; exfalso; lra.
  - pose proof (nearestEven_bounds t). pose proof (nearestEven_bounds u). lia.
Qed.

Lemma nearestEven_integer (k : Z) : nearestEven (inject_Z k) = k.
Proof.
  unfold nearestEven. rewrite Qfloor_Z.
  replace (inject_Z k - inject_Z k ?= 1 # 2) with Lt; [reflexivity|].
  symmetry. apply (proj1 (Qlt_alt _ _)). lra.
Qed.

Lemma ulpExponent_monotone (x y : Q) :
  0 < x -> x <= y -> (ulpExponent x <= ulpExponent y)%Z.
Proof.
  intros Hx Hxy. unfold ulpExponent.
  pose proof (Qlog2_monotone x y Hx Hxy). lia.
Qed.

Lemma roundMagnitude_nonneg (m : Q) : 0 <= m -> 0 <= roundMagnitude m.
Proof.
  intro Hm. unfold roundMagnitude.
  apply Qmult_le_0_compat; [|apply Qlt_le_weak, pow2_pos].
  change 0 with (inject_Z 0). rewrite <- Zle_Qle.
  rewrite <- (nearestEven_integer 0). apply nearestEven_monotone.
  change (inject_Z 0) with 0.
  apply Qle_shift_div_l; [apply pow2_pos|]. lra.
Qed.

(** Rounding the magnitude keeps the order. *)
Lemma roundMagnitude_monotone (x y : Q) :
  0 < x -> x <= y -> roundMagnitude x <= roundMagnitude y.
Proof.
  intros Hx Hxy.
  assert (Hy : 0 < y) by lra.
  pose proof (ulpExponent_monotone x y Hx Hxy) as HE.
  unfold roundMagnitude.
  destruct (Z.eq_dec (ulpExponent x) (ulpExponent y)) as [E|E].
  - rewrite E. apply Qmult_le_compat_r; [|apply Qlt_le_weak, pow2_pos].
    rewrite <- Zle_Qle. apply nearestEven_monotone.
    unfold Qdiv. apply Qmult_le_compat_r; [exact Hxy|].
    apply Qlt_le_weak, Qinv_lt_0_compat, pow2_pos.
  - assert (Hlt : (ulpExponent x + 1 <= ulpExponent y)%Z) by lia.
    destruct (Qlog2_spec x Hx) as [_ Ux].
    destruct (Qlog2_spec y Hy) as [Ly _].
    set (Ex := ulpExponent x) in *. set (Ey := ulpExponent y) in *.
    assert (Hex : (Qlog2 x + 1 <= Ex + 53)%Z) by (unfold Ex, ulpExponent; lia).
    assert (Hey : Qlog2 y = (Ey + 52)%Z) by (unfold Ex, Ey, ulpExponent in *; lia).
    (* x rounds to at most 2^(Ex+53) *)
    assert (Rx : inject_Z (nearestEven (x / 2 ^ Ex)) * 2 ^ Ex <= 2 ^ (Ex + 53)).
    { rewrite (Qpower_plus 2 Ex 53) by discriminate.
      rewrite (Qmult_comm (2 ^ Ex)).
      apply Qmult_le_compat_r; [|apply Qlt_le_weak, pow2_pos].
      change (2 ^ 53) with (inject_Z (2 ^ 53)).
      rewrite <- Zle_Qle. rewrite <- (nearestEven_integer (2 ^ 53)).
      apply nearestEven_monotone.
      change (inject_Z (2 ^ 53)) with (2 ^ 53).
      apply Qle_shift_div_r; [apply pow2_pos|].
      rewrite (Qmult_comm (2 ^ 53)), <- Qpower_plus by discriminate.
      pose proof (pow2_le _ _ Hex). lra. }
    (* y rounds to at least 2^(Ey+52) *)
    assert (Ry : 2 ^ (Ey + 52) <= inject_Z (nearestEven (y / 2 ^ Ey)) * 2 ^ Ey).
    { rewrite (Qpower_plus 2 Ey 52) by discriminate.
      rewrite (Qmult_comm (2 ^ Ey)).
      apply Qmult_le_compat_r; [|apply Qlt_le_weak, pow2_pos].
      change (2 ^ 52) with (inject_Z (2 ^ 52)).
      rewrite <- Zle_Qle. rewrite <- (nearestEven_integer (2 ^ 52)) at 1.
      apply nearestEven_monotone.
      change (inject_Z (2 ^ 52)) with (2 ^ 52).
      apply Qle_shift_div_l; [apply pow2_pos|].
      rewrite (Qmult_comm (2 ^ 52)), <- Qpower_plus by discriminate.
      rewrite <- Hey. exact Ly. }
    assert (Hmid : 2 ^ (Ex + 53) <= 2 ^ (Ey + 52)) by (apply pow2_le; lia).
    lra.
Qed.

Lemma binary64_monotone : monotoneRounding binary64.
Proof.
  intros x y Hxy. unfold binary64.
  destruct (x ?= 0) eqn:Cx; destruct (y ?= 0) eqn:Cy;
    repeat match goal with
      | C : (_ ?= _) = Eq |- _ => apply Qeq_alt in C
      | C : (_ ?= _) = Lt |- _ => apply Qlt_alt in C
      | C : (_ ?= _) = Gt |- _ => apply Qgt_alt in C
      end; try (exfalso; lra); cbv zeta.
  - reflexivity.
  - pose proof (roundMagnitude_nonneg y).
    destruct (Qle_bool (2 ^ 1024) (roundMagnitude y)); [reflexivity|].
    apply le_Fin. rewrite Qred_correct. lra.
  - pose proof (roundMagnitude_nonneg (- x)).
    destruct (Qle_bool (2 ^ 1024) (roundMagnitude (- x))); [reflexivity|].
    apply le_Fin. rewrite Qred_correct. lra.
  - assert (H : roundMagnitude (- y) <= roundMagnitude (- x))
      by (apply roundMagnitude_monotone; lra).
    destruct (Qle_bool (2 ^ 1024) (roundMagnitude (- x))) eqn:Ex;
      destruct (Qle_bool (2 ^ 1024) (roundMagnitude (- y))) eqn:Ey;
      try reflexivity.
    + apply Qle_bool_iff in Ey. apply Qle_bool_false in Ex. lra.
    + apply le_Fin. rewrite !Qred_correct. lra.
  - pose proof (roundMagnitude_nonneg (- x)).
    pose proof (roundMagnitude_nonneg y).
    destruct (Qle_bool (2 ^ 1024) (roundMagnitude (- x)));
      destruct (Qle_bool (2 ^ 1024) (roundMagnitude y)); try reflexivity.
    apply le_Fin. rewrite !Qred_correct. lra.
  - assert (H : roundMagnitude x <= roundMagnitude y)
      by (apply roundMagnitude_monotone; lra).
    destruct (Qle_bool (2 ^ 1024) (roundMagnitude x)) eqn:Ex;
      destruct (Qle_bool (2 ^ 1024) (roundMagnitude y)) eqn:Ey;
      try reflexivity.
    + apply Qle_bool_iff in Ex. apply Qle_bool_false in Ey. lra.
    + apply le_Fin. rewrite !Qred_correct. lra.
Qed.

Lemma binary64_correct : correctRounding binary64.
Proof.
  split; [exact binary64_monotone|].
  split; [|split]; vm_compute; reflexivity.
Qed.

(* ================================================================== *)
(** ** From the pointer to a percentage, in rounded arithmetic        *)
(* ================================================================== *)

Lemma le_self (a b : JS.number) : JS.le a b -> JS.le a a /\ JS.le b b.
Proof.
  destruct a, b; unfold JS.le; simpl; try congruence; intros _;
    split; try reflexivity; apply Qle_bool_iff; lra.
Qed.

Lemma eq_le (a b : JS.number) : JS.eq a b -> JS.le a b /\ JS.le b a.
Proof.
  destruct a, b; unfold JS.eq, JS.le; simpl; try congruence;
    try (intros _; split; reflexivity).
  rewrite Qeq_bool_iff, !Qle_bool_iff. lra.
Qed.

Lemma sub_monotone (l x y : Q) :
  x <= y -> JS.le (JS.Fin x - JS.Fin l)%js (JS.Fin y - JS.Fin l)%js.
Proof.
  intro H. cbn [JS.sub]. apply le_Fin. rewrite !Qred_correct. lra.
Qed.

Lemma div_monotone (w : Q) (a b : JS.number) :
  0 < w -> JS.le a b -> JS.le (a / JS.Fin w)%js (b / JS.Fin w)%js.
Proof.
  intros Hw H.
  assert (Hc : (w ?= 0) = Gt) by (apply (proj1 (Qgt_alt _ _)); exact Hw).
  assert (Hp : Qle_bool 0 w = true) by (apply Qle_bool_iff; lra).
  destruct a as [| | |x], b as [| | |y]; unfold JS.le in H; simpl in H;
    try discriminate; cbn [JS.div]; rewrite ?Hc, ?Hp; try reflexivity.
  apply Qle_bool_iff in H. apply le_Fin. rewrite !Qred_correct.
  unfold Qdiv. apply Qmult_le_compat_r; [exact H|].
  apply Qlt_le_weak, Qinv_lt_0_compat, Hw.
Qed.

Lemma mul100_monotone (a b : JS.number) :
  JS.le a b -> JS.le (a * JS.Fin 100)%js (b * JS.Fin 100)%js.
Proof.
  intro H.
  destruct a as [| | |x], b as [| | |y]; unfold JS.le in H; simpl in H;
    try discriminate; cbn [JS.mul]; try reflexivity.
  apply Qle_bool_iff in H. apply le_Fin. rewrite !Qred_correct. lra.
Qed.

Lemma min100_monotone (a b : JS.number) :
  JS.le a b -> JS.le (JS.Math_min (JS.Fin 100) a) (JS.Math_min (JS.Fin 100) b).
Proof.
  intro H.
  destruct a as [| | |x], b as [| | |y]; unfold JS.le in H; simpl in H;
    try discriminate; try (apply Qle_bool_iff in H);
    unfold JS.Math_min; cbn [JS.leb];
    repeat match goal with
      | |- context [Qle_bool ?a ?b] => destruct (Qle_bool a b) eqn:?
      end;
    repeat match goal with
      | E : Qle_bool _ _ = true |- _ => apply Qle_bool_iff in E
      | E : Qle_bool _ _ = false |- _ => apply Qle_bool_false in E
      end;
    try reflexivity; try (apply le_Fin; lra).
Qed.

Lemma max0_monotone (a b : JS.number) :
  JS.le a b -> JS.le (JS.Math_max (JS.Fin 0) a) (JS.Math_max (JS.Fin 0) b).
Proof.
  intro H.
  destruct a as [| | |x], b as [| | |y]; unfold JS.le in H; simpl in H;
    try discriminate; try (apply Qle_bool_iff in H);
    unfold JS.Math_max; cbn [JS.leb];
    repeat match goal with
      | |- context [Qle_bool ?a ?b] => destruct (Qle_bool a b) eqn:?
      end;
    repeat match goal with
      | E : Qle_bool _ _ = true |- _ => apply Qle_bool_iff in E
      | E : Qle_bool _ _ = false |- _ => apply Qle_bool_false in E
      end;
    try reflexivity; try (apply le_Fin; lra).
Qed.

(** A clamped number lies between 0 and 100. *)
Lemma clamp_number_range (a : JS.number) :
  JS.le a a ->
  JS.le (JS.Fin 0) (JS.Math_max (JS.Fin 0) (JS.Math_min (JS.Fin 100) a))
  /\ JS.le (JS.Math_max (JS.Fin 0) (JS.Math_min (JS.Fin 100) a)) (JS.Fin 100).
Proof.
  intro H.
  destruct a as [| | |x]; unfold JS.le in H; simpl in H; try discriminate;
    unfold JS.Math_min, JS.Math_max; cbn [JS.leb];
    try (split; reflexivity).
  destruct (Qle_bool 100 x) eqn:E1; cbn [JS.leb]; [split; reflexivity|].
  destruct (Qle_bool 0 x) eqn:E0; [|split; reflexivity].
  apply Qle_bool_iff in E0. apply Qle_bool_false in E1.
  split; apply le_Fin; lra.
Qed.

Section RoundedFacts.
Variable rnd : Q -> JS.number.
Hypothesis Hmono : monotoneRounding rnd.

Lemma roundResult_monotone (a b : JS.number) :
  JS.le a b -> JS.le (roundResult rnd a) (roundResult rnd b).
Proof.
  intro H.
  destruct a as [| | |x], b as [| | |y]; unfold JS.le in H; simpl in H;
    try discriminate; cbn [roundResult]; try reflexivity.
  - pose proof (Hmono y y (Qle_refl y)) as Hy.
    destruct (rnd y); unfold JS.le in *; simpl in *; congruence.
  - pose proof (Hmono x x (Qle_refl x)) as Hx.
    destruct (rnd x); unfold JS.le in *; simpl in *; congruence.
  - apply Hmono, Qle_bool_iff, H.
Qed.

(** From the exact difference [clientX - rect.left] to the position. *)
Lemma pipeline_monotone (w : Q) (a b : JS.number) :
  0 < w -> JS.le a b ->
  JS.le
    (JS.Math_max (JS.Fin 0)
       (JS.Math_min (JS.Fin 100)
          (roundResult rnd
             (roundResult rnd (roundResult rnd a / JS.Fin w)%js
              * JS.Fin 100)%js)))
    (JS.Math_max (JS.Fin 0)
       (JS.Math_min (JS.Fin 100)
          (roundResult rnd
             (roundResult rnd (roundResult rnd b / JS.Fin w)%js
              * JS.Fin 100)%js))).
Proof.
  intros Hw H.
  apply max0_monotone, min100_monotone, roundResult_monotone,
    mul100_monotone, roundResult_monotone, div_monotone; [exact Hw|].
  apply roundResult_monotone, H.
Qed.

Lemma rnd_below (q r : Q) :
  representable rnd r -> q <= r -> JS.le (rnd q) (JS.Fin r).
Proof.
  intros Hr Hq. eapply le_trans; [apply Hmono, Hq|].
  apply (eq_le _ _ Hr).
Qed.

Lemma rnd_above (q r : Q) :
  representable rnd r -> r <= q -> JS.le (JS.Fin r) (rnd q).
Proof.
  intros Hr Hq. eapply le_trans; [|apply Hmono, Hq].
  apply (eq_le _ _ Hr).
Qed.
End RoundedFacts.

(** C6.  The position a drag computes from the pointer, in the arithmetic
    of the language: every operation rounded, by any rounding that keeps the
    order and leaves 0, 1, 100 and the width as they are, as rounding to
    nearest does.  For a rectangle of positive width the position does not
    decrease when the pointer moves right; it is exactly 0 for a pointer at
    or left of the rectangle's left edge and exactly 100 for a pointer at or
    right of its right edge; and it always lies in [[0, 100]]. *)
Theorem dragPosition_monotone_saturating (rnd : Q -> JS.number)
    (rect : DOMRect)
    (Hrnd : correctRounding rnd)
    (Hwidth : representable rnd (rect_width rect))
    (Hw : 0 < rect_width rect) :
  (forall e1 e2, clientX e1 <= clientX e2 ->
     (dragPositionRounded rnd e1 rect <= dragPositionRounded rnd e2 rect)%js)
  /\ (forall e, clientX e <= rect_left rect ->
        (dragPositionRounded rnd e rect == JS.Fin 0)%js)
  /\ (forall e, rect_left rect + rect_width rect <= clientX e ->
        (dragPositionRounded rnd e rect == JS.Fin 100)%js)
  /\ (forall e,
        (JS.Fin 0 <= dragPositionRounded rnd e rect)%js
        /\ (dragPositionRounded rnd e rect <= JS.Fin 100)%js).
Proof.
  destruct Hrnd as [Hmono [H0 [H1 H100]]].
  set (w := rect_width rect) in *.
  assert (Hrange : forall e,
            (JS.Fin 0 <= dragPositionRounded rnd e rect)%js
            /\ (dragPositionRounded rnd e rect <= JS.Fin 100)%js).
  { intro e. unfold dragPositionRounded. apply clamp_number_range.
    refine (proj1 (le_self _ _ (roundResult_monotone rnd Hmono _ _ _))).
    refine (mul100_monotone _ _ (roundResult_monotone rnd Hmono _ _ _)).
    refine (div_monotone w _ _ Hw (roundResult_monotone rnd Hmono _ _ _)).
    apply (sub_monotone (rect_left rect) (clientX e) (clientX e)), Qle_refl. }
  split; [|split; [|split; [|exact Hrange]]].
  - intros e1 e2 H12. unfold dragPositionRounded.
    apply (pipeline_monotone rnd Hmono w _ _ Hw).
    apply sub_monotone, H12.
  - intros e He. apply le_antisym; [|apply Hrange].
    unfold dragPositionRounded.
    set (a := (JS.Fin (clientX e) - JS.Fin (rect_left rect))%js).
    assert (Ha : JS.le a (JS.Fin 0)).
    { unfold a. cbn [JS.sub]. apply le_Fin. rewrite Qred_correct. lra. }
    assert (V1 : JS.le (roundResult rnd a) (JS.Fin 0)).
    { eapply le_trans; [apply (roundResult_monotone rnd Hmono), Ha|].
      cbn [roundResult]. apply (rnd_below rnd Hmono 0 0 H0), Qle_refl. }
    assert (V2 : JS.le (roundResult rnd (roundResult rnd a / JS.Fin w)%js)
                   (JS.Fin 0)).
    { eapply le_trans;
        [apply (roundResult_monotone rnd Hmono);
         apply div_monotone; [exact Hw | exact V1]|].
      unfold JS.div.
      replace (w ?= 0) with Gt by (symmetry; apply (proj1 (Qgt_alt _ _)), Hw).
      cbn [roundResult]. apply (rnd_below rnd Hmono _ 0 H0).
      rewrite Qred_correct. unfold Qdiv. rewrite Qmult_0_l. apply Qle_refl. }
    assert (V3 : JS.le
                   (roundResult rnd
                      (roundResult rnd (roundResult rnd a / JS.Fin w)%js
                       * JS.Fin 100)%js) (JS.Fin 0)).
    { eapply le_trans;
        [apply (roundResult_monotone rnd Hmono), mul100_monotone, V2|].
      cbn [JS.mul roundResult]. apply (rnd_below rnd Hmono _ 0 H0).
      rewrite Qred_correct. lra. }
    eapply le_trans; [apply max0_monotone, min100_monotone, V3|].
    reflexivity.
  - intros e He. apply le_antisym; [apply Hrange|].
    unfold dragPositionRounded.
    set (a := (JS.Fin (clientX e) - JS.Fin (rect_left rect))%js).
    assert (Ha : JS.le (JS.Fin w) a).
    { unfold a. cbn [JS.sub]. apply le_Fin. rewrite Qred_correct. lra. }
    assert (V1 : JS.le (JS.Fin w) (roundResult rnd a)).
    { eapply le_trans; [|apply (roundResult_monotone rnd Hmono), Ha].
      cbn [roundResult]. apply (rnd_above rnd Hmono w w Hwidth), Qle_refl. }
    assert (V2 : JS.le (JS.Fin 1)
                   (roundResult rnd (roundResult rnd a / JS.Fin w)%js)).
    { eapply le_trans;
        [|apply (roundResult_monotone rnd Hmono);
          apply div_monotone; [exact Hw | exact V1]].
      unfold JS.div.
      replace (w ?= 0) with Gt by (symmetry; apply (proj1 (Qgt_alt _ _)), Hw).
      cbn [roundResult]. apply (rnd_above rnd Hmono _ 1 H1).
      rewrite Qred_correct. unfold Qdiv. rewrite Qmult_inv_r by lra.
      apply Qle_refl. }
    assert (V3 : JS.le (JS.Fin 100)
                   (roundResult rnd
                      (roundResult rnd (roundResult rnd a / JS.Fin w)%js
                       * JS.Fin 100)%js)).
    { eapply le_trans;
        [|apply (roundResult_monotone rnd Hmono), mul100_monotone, V2].
      cbn [JS.mul roundResult]. apply (rnd_above rnd Hmono _ 100 H100).
      rewrite Qred_correct. lra. }
    eapply le_trans; [|apply max0_monotone, min100_monotone, V3].
    reflexivity.
Qed.

Lemma dragPosition_monotone_saturating_witness :
  correctRounding binary64
  /\ representable binary64 (rect_width slider100)
  /\ 0 < rect_width slider100
  /\ (dragPositionRounded binary64 (mkMouseEvent 29 0) slider100
      <= dragPositionRounded binary64 (mkMouseEvent 30 0) slider100)%js
  /\ (dragPositionRounded binary64 (mkMouseEvent (- (5)) 0) slider100
      == JS.Fin 0)%js
  /\ (dragPositionRounded binary64 (mkMouseEvent 120 0) slider100
      == JS.Fin 100)%js.
Proof.
  assert (Hr : correctRounding binary64) by exact binary64_correct.
  assert (Hrep : representable binary64 (rect_width slider100))
    by (vm_compute; reflexivity).
  assert (Hw : 0 < rect_width slider100) by reflexivity.
  destruct (dragPosition_monotone_saturating binary64 slider100 Hr Hrep Hw)
    as [Hmono [Hzero [Hfull _]]].
  split; [exact Hr|]. split; [exact Hrep|]. split; [exact Hw|].
  split; [|split].
  - apply Hmono. simpl. lra.
  - apply Hzero. simpl. lra.
  - apply Hfull. simpl. lra.
Defined.

(** The exact model is an instance: leaving every result as it is keeps
    the order and every number. *)
Lemma exact_rounding_correct :
  correctRounding JS.Fin /\ forall q, representable JS.Fin q.
Proof.
  assert (Hrep : forall q, representable JS.Fin q).
  { intro q. apply eq_Fin. reflexivity. }
  split; [|exact Hrep].
  split; [|repeat split; apply Hrep].
  intros x y H. apply le_Fin, H.
Qed.

(** With the exact rounding the rounded position is the position of the
    exact model, in every case. *)
Lemma dragPositionRounded_exact (e : MouseEvent) (rect : DOMRect) :
  dragPositionRounded JS.Fin e rect = dragPosition e rect.
Proof.
  unfold dragPositionRounded, dragPosition. cbn [JS.sub roundResult].
  set (x := clientX e - rect_left rect).
  assert (Hx : Qred x == x) by apply Qred_correct.
  do 2 f_equal.
  assert (Hd : (JS.Fin (Qred x) / JS.Fin (rect_width rect))%js
               = (JS.Fin x / JS.Fin (rect_width rect))%js).
  { unfold JS.div.
    destruct (rect_width rect ?= 0).
    - rewrite Hx. reflexivity.
    - f_equal. apply Qred_complete. rewrite Hx. reflexivity.
    - f_equal. apply Qred_complete. rewrite Hx. reflexivity. }
  rewrite Hd.
  destruct (JS.Fin x / JS.Fin (rect_width rect))%js; reflexivity.
Qed.

(** Where rounding shows.  In binary64 a pointer at 29 on a slider from 0
    to 100 gives [(29 / 100) * 100 = 28.999999999999996], where the exact
    quotient is 29; and with the left edge at the binary64 number nearest
    0.1 and the pointer at the one nearest 100.1, the difference rounds to
    100 and the position is 100 although the pointer is left of the right
    edge. *)
Remark dragPositionRounded_binary64_examples :
  dragPositionRounded binary64 (mkMouseEvent 29 0) slider100
  = JS.Fin (8162774324609023 # 281474976710656)
  /\ dragPosition (mkMouseEvent 29 0) slider100 = JS.Fin 29
  /\ (3521955646092083 # 35184372088832)
     < (3602879701896397 # 36028797018963968) + 100
  /\ dragPositionRounded binary64
       (mkMouseEvent (3521955646092083 # 35184372088832) 0)
       (mkDOMRect (3602879701896397 # 36028797018963968) 0 100 20)
     = JS.Fin 100.
Proof.
  split; [vm_compute; reflexivity|]. split; [reflexivity|].
  split; [reflexivity|]. vm_compute. reflexivity.
Qed.

(* ================================================================== *)
(** ** Dragging against a rectangle without width                     *)
(* ================================================================== *)





(** In every case the position a drag computes is NaN or a number of
    [[0, 100]], and it is NaN only for a width of zero with the pointer on
    the left edge. *)
Lemma dragPosition_range (e : MouseEvent) (rect : DOMRect) :
  (dragPosition e rect = JS.NaN
   /\ rect_width rect == 0 /\ clientX e == rect_left rect)
  \/ ((JS.Fin 0 <= dragPosition e rect)%js
      /\ (dragPosition e rect <= JS.Fin 100)%js).
Proof.
  destruct (Qeq_dec (rect_width rect) 0) as [Hz|Hnz].
  - rewrite (dragPosition_zero_width e rect Hz).
    destruct (clientX e ?= rect_left rect) eqn:E.
    + left. apply Qeq_alt in E. repeat split; assumption.
    + right. split; reflexivity.
    + right. split; reflexivity.
  - right.
    destruct (dragPosition_pointerToPercent e rect Hnz) as [v [-> Hv]].
    rewrite !le_Fin, Hv. apply clamp_range.
Qed.

(* ================================================================== *)
(** ** Updates that name no stop                                      *)
(* ================================================================== *)

Lemma map_unchanged (A : Type) (f : A -> A) (l : list A) :
  (forall x, In x l -> f x = x) -> map f l = l.
Proof.
  intro H. rewrite <- (map_id l) at 2. apply map_ext_in. exact H.
Qed.

(** C8.  An update that names an identifier no stop carries leaves the
    state as it was, for a colour change and for a drag alike. *)
Theorem update_unknown_stop (stopId : string) (s : State)
    (Habsent : ~ In stopId (map id (colorStops s))) :
  (forall newColor, handleColorChange newColor stopId s = s)
  /\ (forall e slider, handleStopDrag e slider stopId s = s).
Proof.
  assert (Hne : forall stop, In stop (colorStops s) ->
                             String.eqb (id stop) stopId = false).
  { intros stop Hin. apply String.eqb_neq. intro E. apply Habsent.
    rewrite <- E. apply in_map, Hin. }
  split.
  - intro newColor. unfold handleColorChange.
    apply setColorStops_same, map_unchanged.
    intros stop Hin. rewrite (Hne stop Hin). reflexivity.
  - intros e [rect|]; [|reflexivity]. unfold handleStopDrag.
    apply setColorStops_same, map_unchanged.
    intros stop Hin. rewrite (Hne stop Hin). reflexivity.
Qed.

Lemma update_unknown_stop_witness :
  ~ In "9"%string (map id (colorStops initialState))
  /\ handleColorChange "#000000" "9" initialState = initialState
  /\ handleStopDrag (mkMouseEvent 30 0) (Some slider100) "9" initialState
     = initialState.
Proof.
  assert (H : ~ In "9"%string (map id (colorStops initialState))).
  { simpl. intuition discriminate. }
  split; [exact H|].
  destruct (update_unknown_stop "9" initialState H) as [Hc Hd].
  split; [apply Hc | apply Hd].
Defined.

(* ================================================================== *)
(** ** The range of stored positions                                  *)
(* ================================================================== *)

(** What [handleSliderClick] stores outside a drag: the new stop, at the
    position computed from the pointer, after the stops there were. *)
Lemma handleSliderClick_stores (e : MouseEvent) (rect : DOMRect)
    (newId : string) (s : State) :
  truthy (draggingStop s) = false ->
  colorStops (handleSliderClick e (Some rect) newId s)
  = colorStops s
    ++ [ {| color := "#FFFFFF"; position := clickPosition e rect;
            id := newId |} ].
Proof. intro H. unfold handleSliderClick. rewrite H. reflexivity. Qed.

(** A click between the edges of a rectangle of positive width gives a
    position of [[0, 100]]. *)
Lemma clickPosition_inside (e : MouseEvent) (rect : DOMRect) :
  0 < rect_width rect ->
  rect_left rect <= clientX e <= rect_left rect + rect_width rect ->
  (JS.Fin 0 <= clickPosition e rect)%js
  /\ (clickPosition e rect <= JS.Fin 100)%js.
Proof.
  intros Hw [Hlo Hhi]. unfold clickPosition.
  set (x := clientX e - rect_left rect).
  set (w := rect_width rect) in *.
  assert (Hd : (JS.Fin x / JS.Fin w)%js = JS.Fin (Qred (x / w))).
  { unfold JS.div. destruct (w ?= 0) eqn:Hc; try reflexivity.
    apply Qeq_alt in Hc. lra. }
  rewrite Hd. cbn [JS.mul]. rewrite !le_Fin, !Qred_correct.
  destruct (percent_facts (rect_left rect) w Hw) as [_ [Hzero Hfull]].
  fold x in Hzero, Hfull.
  split.
  - destruct (Qlt_le_dec (x / w * 100) 0) as [Hneg|]; [|assumption].
    assert (H : clientX e <= rect_left rect)
      by (apply (Hzero (clientX e)); fold x; lra).
    assert (H0 : x / w * 100 == 0).
    { apply Qle_antisym; [lra|].
      assert (Hx : x == 0) by (unfold x; lra).
      rewrite Hx. unfold Qdiv. rewrite !Qmult_0_l. lra. }
    lra.
  - destruct (Qlt_le_dec 100 (x / w * 100)) as [Hbig|]; [|assumption].
    assert (H : rect_left rect + w <= clientX e)
      by (apply (Hfull (clientX e)); fold x; lra).
    assert (Hx : x == w) by (unfold x; lra).
    assert (H1 : x / w * 100 == 100).
    { rewrite Hx. unfold Qdiv. rewrite Qmult_inv_r by lra. lra. }
    lra.
Qed.

(** C9.  A stored position can leave [[0, 100]].  A click carries no clamp:
    with the pointer at 150 against a slider from 0 to 100 the new stop is
    stored at position 150.  And the clamp of a drag lets NaN through: with
    the pointer on the left edge of a rectangle of width zero the dragged
    stop is stored at NaN. *)
Theorem stored_position_out_of_range :
  Forall inRange (colorStops initialState)
  /\ map position
       (colorStops
          (handleSliderClick (mkMouseEvent 150 10) (Some slider100) "3"
             initialState))
     = [JS.Fin 0; JS.Fin 100; JS.Fin 150]
  /\ ~ Forall inRange
         (colorStops
            (handleSliderClick (mkMouseEvent 150 10) (Some slider100) "3"
               initialState))
  /\ map position
       (colorStops
          (handleStopDrag (mkMouseEvent 0 0) (Some emptyRect) "1"
             initialState))
     = [JS.NaN; JS.Fin 100]
  /\ ~ Forall inRange
         (colorStops
            (handleStopDrag (mkMouseEvent 0 0) (Some emptyRect) "1"
               initialState)).
Proof.
  split; [repeat constructor|].
  split; [reflexivity|]. split; [|split; [reflexivity|]].
  - intro H. apply Forall_forall with (x := stopAt "#FFFFFF" 150 "3") in H.
    + destruct H as [_ H]. discriminate H.
    + simpl. right. right. left. reflexivity.
  - intro H. inversion H as [|? ? [H0 _] _]. discriminate H0.
Qed.

(* ================================================================== *)
(** ** The numeric position field                                     *)
(* ================================================================== *)

Lemma unique_id_same_stop (l : list ColorStop) (x y : ColorStop) :
  NoDup (map id l) -> In x l -> In y l -> id x = id y -> x = y.
Proof.
  induction l as [|z r IH]; simpl; [contradiction|].
  intros Hnd Hx Hy E. inversion Hnd as [|? ? Hnotin Hr]; subst.
  destruct Hx as [Hx|Hx], Hy as [Hy|Hy].
  - congruence.
  - subst z. exfalso. apply Hnotin. rewrite E. apply in_map, Hy.
  - subst z. exfalso. apply Hnotin. rewrite <- E. apply in_map, Hx.
  - apply IH; assumption.
Qed.

Lemma with_color_same (stop : ColorStop) : with_color stop (color stop) = stop.
Proof. destruct stop; reflexivity. Qed.

(** C10.  Whatever is entered in the numeric position field of a stop of
    the state, the state stays as it was: the handler writes the stop's own
    colour back under the stop's own identifier, and the position it
    computed goes nowhere. *)
Theorem positionInputChange_no_effect (value : JS.number) (stop : ColorStop)
    (s : State)
    (Hids : uniqueIds s) (Hin : In stop (colorStops s)) :
  positionInputChange value stop s = s.
Proof.
  unfold positionInputChange, handleColorChange.
  apply setColorStops_same, map_unchanged.
  intros other Hother.
  destruct (String.eqb_spec (id other) (id stop)) as [E|E]; [|reflexivity].
  rewrite (unique_id_same_stop _ other stop Hids Hother Hin E).
  apply with_color_same.
Qed.

Lemma positionInputChange_no_effect_witness :
  uniqueIds initialState
  /\ In (stopAt "#50E3C2" 100 "2") (colorStops initialState)
  /\ positionInputChange (JS.Fin 40) (stopAt "#50E3C2" 100 "2") initialState
     = initialState.
Proof.
  assert (H0 : uniqueIds initialState).
  { unfold uniqueIds. simpl. repeat constructor; simpl; intuition discriminate. }
  assert (H1 : In (stopAt "#50E3C2" 100 "2") (colorStops initialState)).
  { simpl. right. left. reflexivity. }
  split; [exact H0|]. split; [exact H1|].
  apply (positionInputChange_no_effect (JS.Fin 40) _ initialState H0 H1).
Defined.

(* ================================================================== *)
(** ** More on rendering                                              *)
(* ================================================================== *)

(** An array already in position order is left as it is. *)
Lemma Array_sort_sorted_fixed (l : list ColorStop) :
  StronglySorted positionLe l -> JS.Array_sort byPosition l = l.
Proof.
  induction 1 as [|x r Hr IH Hx]; [reflexivity|].
  simpl. rewrite IH.
  destruct r as [|y r']; [reflexivity|].
  simpl. destruct (JS.after byPosition x y) eqn:E; [|reflexivity].
  exfalso. inversion Hx as [|? ? Hxy _]; subst.
  apply after_byPosition_true in E.
  exact (lt_le_absurd _ _ E Hxy).
Qed.

(** Two arrays in position order with the same stops are the same array,
    when distinct stops have distinct positions. *)
Lemma sorted_perm_unique (l1 l2 : list ColorStop) :
  positionsIdentify l1 ->
  StronglySorted positionLe l1 -> StronglySorted positionLe l2 ->
  Permutation l1 l2 -> l1 = l2.
Proof.
  revert l2. induction l1 as [|a r1 IH]; intros l2 Hid H1 H2 Hp.
  - apply Permutation_nil in Hp. subst. reflexivity.
  - destruct l2 as [|b r2].
    + apply Permutation_sym, Permutation_nil in Hp. discriminate.
    + inversion H1 as [|? ? Hr1 Ha]; subst.
      inversion H2 as [|? ? Hr2 Hb]; subst.
      assert (Hab : a = b).
      { assert (Hina : In a (b :: r2))
          by (apply (Permutation_in _ Hp); left; reflexivity).
        assert (Hinb : In b (a :: r1))
          by (apply (Permutation_in _ (Permutation_sym Hp)); left; reflexivity).
        destruct Hina as [E|Hina]; [symmetry; exact E|].
        destruct Hinb as [E|Hinb]; [exact E|].
        apply Hid; [left; reflexivity | right; exact Hinb |].
        apply le_antisym.
        - exact (proj1 (Forall_forall _ _) Ha b Hinb).
        - exact (proj1 (Forall_forall _ _) Hb a Hina). }
      subst b. f_equal. apply IH; try assumption.
      * intros x y Hx Hy. apply Hid; right; assumption.
      * apply Permutation_cons_inv with (a := a). exact Hp.
Qed.

(** X1.  Rendering twice is rendering once: for stops whose positions are
    numbers, the array a render leaves is left as it is by the next render,
    and the next render produces the same string. *)
Theorem render_idempotent (numberToString : JS.number -> string) (s : State)
    (Hnum : Forall hasPosition (colorStops s)) :
  snd (gradientString numberToString (snd (gradientString numberToString s)))
  = snd (gradientString numberToString s)
  /\ fst (gradientString numberToString (snd (gradientString numberToString s)))
     = fst (gradientString numberToString s).
Proof.
  assert (Hfix : JS.Array_sort byPosition (JS.Array_sort byPosition (colorStops s))
                 = JS.Array_sort byPosition (colorStops s)).
  { apply Array_sort_sorted_fixed, Array_sort_sorted, Hnum. }
  unfold gradientString, sortColorStops. simpl.
  rewrite !Hfix. split; reflexivity.
Qed.

Lemma render_idempotent_witness :
  Forall hasPosition (colorStops afterClick)
  /\ fst (gradientString JS.showNumber
            (snd (gradientString JS.showNumber afterClick)))
     = fst (gradientString JS.showNumber afterClick).
Proof.
  assert (H : Forall hasPosition (colorStops afterClick)).
  { repeat constructor; discriminate. }
  split; [exact H|].
  apply (render_idempotent JS.showNumber afterClick H).
Defined.

(** X2.  The rendered string does not depend on the order of the array:
    two states with the same angle whose arrays hold the same stops in any
    two orders render the same string, provided the positions are numbers
    and distinct stops have distinct positions. *)
Theorem render_order_independent (numberToString : JS.number -> string)
    (s1 s2 : State)
    (Hnum : Forall hasPosition (colorStops s1))
    (Hid : positionsIdentify (colorStops s1))
    (Hangle : angle s1 = angle s2)
    (Hperm : Permutation (colorStops s1) (colorStops s2)) :
  fst (gradientString numberToString s1)
  = fst (gradientString numberToString s2).
Proof.
  unfold gradientString, sortColorStops. simpl. rewrite Hangle.
  f_equal.
  assert (Hnum2 : Forall hasPosition (colorStops s2))
    by (apply (Permutation_Forall Hperm), Hnum).
  apply sorted_perm_unique.
  - intros a b Ha Hb. apply Hid.
    + apply (Permutation_in _ (Array_sort_perm byPosition _)), Ha.
    + apply (Permutation_in _ (Array_sort_perm byPosition _)), Hb.
  - apply Array_sort_sorted, Hnum.
  - apply Array_sort_sorted, Hnum2.
  - eapply perm_trans; [apply Array_sort_perm|].
    eapply perm_trans; [exact Hperm|].
    apply Permutation_sym, Array_sort_perm.
Qed.

Lemma render_order_independent_witness :
  Forall hasPosition (colorStops threeStops)
  /\ positionsIdentify (colorStops threeStops)
  /\ fst (gradientString JS.showNumber threeStops)
     = fst (gradientString JS.showNumber
              (snd (gradientString JS.showNumber threeStops))).
Proof.
  assert (H : Forall hasPosition (colorStops threeStops)).
  { repeat constructor; discriminate. }
  assert (Hid : positionsIdentify (colorStops threeStops)).
  { intros a b Ha Hb. simpl in Ha, Hb.
    destruct Ha as [<-|[<-|[<-|[]]]], Hb as [<-|[<-|[<-|[]]]];
      intro E; try reflexivity; discriminate E. }
  split; [exact H|]. split; [exact Hid|].
  apply (render_order_independent JS.showNumber threeStops
           (snd (gradientString JS.showNumber threeStops)) H Hid eq_refl).
  apply Permutation_sym, Array_sort_perm.
Defined.



(* ================================================================== *)
(** ** Updates of one stop                                            *)
(* ================================================================== *)

Lemma setColorStops_twice (f g : list ColorStop -> list ColorStop) (s : State) :
  setColorStops g (setColorStops f s) = setColorStops (fun l => g (f l)) s.
Proof. reflexivity. Qed.

Lemma setColorStops_ext (f g : list ColorStop -> list ColorStop) (s : State) :
  f (colorStops s) = g (colorStops s) -> setColorStops f s = setColorStops g s.
Proof. unfold setColorStops. intros ->. reflexivity. Qed.

(** X4.  Of two drags of the same stop the later one alone counts: a drag
    against a mounted slider overwrites what any earlier drag of that stop
    stored, so a sequence of pointer moves leaves the position of the last
    move, not an accumulation. *)
Theorem drag_last_move_wins (e1 e2 : MouseEvent) (slider1 : option DOMRect)
    (rect2 : DOMRect) (stopId : string) (s : State) :
  handleStopDrag e2 (Some rect2) stopId (handleStopDrag e1 slider1 stopId s)
  = handleStopDrag e2 (Some rect2) stopId s.
Proof.
  destruct slider1 as [rect1|]; [|reflexivity].
  unfold handleStopDrag. rewrite setColorStops_twice.
  apply setColorStops_ext. rewrite map_map. apply map_ext.
  intro stop. destruct (String.eqb (id stop) stopId) eqn:E.
  - simpl. rewrite E. reflexivity.
  - rewrite E. reflexivity.
Qed.

(** X5.  Colour changes and drags act on different fields and do not
    interfere: a colour change and a drag give the same state in either
    order, whichever stops they name, and of two colour changes of the same
    stop the later one alone counts. *)
Theorem color_change_composes (c1 c2 : string) (i j : string)
    (e : MouseEvent) (slider : option DOMRect) (s : State) :
  handleColorChange c1 i (handleStopDrag e slider j s)
  = handleStopDrag e slider j (handleColorChange c1 i s)
  /\ handleColorChange c2 i (handleColorChange c1 i s)
     = handleColorChange c2 i s.
Proof.
  split.
  - destruct slider as [rect|]; [|reflexivity].
    unfold handleColorChange, handleStopDrag.
    rewrite !setColorStops_twice. apply setColorStops_ext.
    rewrite !map_map. apply map_ext. intro stop.
    destruct (String.eqb (id stop) i) eqn:Ei,
             (String.eqb (id stop) j) eqn:Ej;
      simpl; rewrite ?Ei, ?Ej; reflexivity.
  - unfold handleColorChange. rewrite setColorStops_twice.
    apply setColorStops_ext. rewrite map_map. apply map_ext. intro stop.
    destruct (String.eqb (id stop) i) eqn:Ei; simpl; rewrite Ei; reflexivity.
Qed.

Lemma findStop_id (j : string) (l : list ColorStop) (x : ColorStop) :
  findStop j l = Some x -> id x = j /\ In x l.
Proof.
  unfold findStop. intro H. apply find_some in H. destruct H as [Hin E].
  apply String.eqb_eq in E. split; assumption.
Qed.

Lemma findStop_unique (l : list ColorStop) (stop : ColorStop) :
  NoDup (map id l) -> In stop l -> findStop (id stop) l = Some stop.
Proof.
  intros Hnd Hin.
  destruct (findStop (id stop) l) as [x|] eqn:F.
  - destruct (findStop_id _ _ _ F) as [E Hx].
    f_equal. apply (unique_id_same_stop l); assumption.
  - unfold findStop in F.
    pose proof (find_none _ _ F stop Hin) as H. simpl in H.
    rewrite String.eqb_refl in H. discriminate H.
Qed.

Lemma findStop_map (f : ColorStop -> ColorStop) (j : string)
    (l : list ColorStop) :
  (forall x, id (f x) = id x) ->
  findStop j (map f l) = option_map f (findStop j l).
Proof.
  intro Hf. unfold findStop.
  induction l as [|x r IH]; [reflexivity|].
  simpl. rewrite Hf. destruct (String.eqb (id x) j); [reflexivity|exact IH].
Qed.

(** X6.  A drag moves one stop and nothing else.  In a state with distinct
    identifiers, dragging a stop of the state leaves that stop with the
    position computed from the pointer and its colour and identifier as
    they were; every other identifier finds the stop it found before; the
    array keeps its length and the order of its identifiers and colours;
    the angle and the drag flags are kept. *)
Theorem drag_moves_one_stop (e : MouseEvent) (rect : DOMRect)
    (stop : ColorStop) (s : State)
    (Hids : uniqueIds s) (Hin : In stop (colorStops s)) :
  findStop (id stop)
    (colorStops (handleStopDrag e (Some rect) (id stop) s))
  = Some (with_position stop (dragPosition e rect))
  /\ (forall j, j <> id stop ->
        findStop j (colorStops (handleStopDrag e (Some rect) (id stop) s))
        = findStop j (colorStops s))
  /\ map id (colorStops (handleStopDrag e (Some rect) (id stop) s))
     = map id (colorStops s)
  /\ map color (colorStops (handleStopDrag e (Some rect) (id stop) s))
     = map color (colorStops s)
  /\ angle (handleStopDrag e (Some rect) (id stop) s) = angle s
  /\ draggingStop (handleStopDrag e (Some rect) (id stop) s) = draggingStop s
  /\ isDraggingAngle (handleStopDrag e (Some rect) (id stop) s)
     = isDraggingAngle s.
Proof.
  set (f := fun st : ColorStop =>
              if String.eqb (id st) (id stop)
              then with_position st (dragPosition e rect) else st).
  assert (Hf : forall x, id (f x) = id x).
  { intro x. unfold f. destruct (String.eqb (id x) (id stop)); reflexivity. }
  change (colorStops (handleStopDrag e (Some rect) (id stop) s))
    with (map f (colorStops s)).
  split; [|split; [|split; [|split]]].
  - rewrite (findStop_map f _ _ Hf), (findStop_unique _ stop Hids Hin).
    simpl. unfold f. rewrite String.eqb_refl. reflexivity.
  - intros j Hj. rewrite (findStop_map f _ _ Hf).
    destruct (findStop j (colorStops s)) as [x|] eqn:F; [|reflexivity].
    simpl. f_equal. unfold f.
    destruct (findStop_id _ _ _ F) as [E _].
    destruct (String.eqb_spec (id x) (id stop)) as [E'|]; [|reflexivity].
    exfalso. apply Hj. rewrite <- E. exact E'.
  - apply map_id_update, Hf.
  - rewrite map_map. apply map_ext. intro x. unfold f.
    destruct (String.eqb (id x) (id stop)); reflexivity.
  - repeat split.
Qed.

Lemma drag_moves_one_stop_witness :
  uniqueIds initialState
  /\ In (stopAt "#4A90E2" 0 "1") (colorStops initialState)
  /\ findStop "1"
       (colorStops
          (handleStopDrag (mkMouseEvent 30 0) (Some slider100) "1"
             initialState))
     = Some (stopAt "#4A90E2" 30 "1").
Proof.
  assert (H0 : uniqueIds initialState).
  { unfold uniqueIds. simpl. repeat constructor; simpl; intuition discriminate. }
  assert (H1 : In (stopAt "#4A90E2" 0 "1") (colorStops initialState)).
  { simpl. left. reflexivity. }
  split; [exact H0|]. split; [exact H1|].
  exact (proj1 (drag_moves_one_stop (mkMouseEvent 30 0) slider100
                  (stopAt "#4A90E2" 0 "1") initialState H0 H1)).
Defined.

(** X7.  A colour change recolours one stop and nothing else.  In a state
    with distinct identifiers, changing the colour of a stop of the state
    leaves that stop with the new colour at the position it had; every
    other identifier finds the stop it found before; no position and no
    identifier of the array changes. *)
Theorem color_change_recolours_one_stop (newColor : string)
    (stop : ColorStop) (s : State)
    (Hids : uniqueIds s) (Hin : In stop (colorStops s)) :
  findStop (id stop) (colorStops (handleColorChange newColor (id stop) s))
  = Some (with_color stop newColor)
  /\ (forall j, j <> id stop ->
        findStop j (colorStops (handleColorChange newColor (id stop) s))
        = findStop j (colorStops s))
  /\ map id (colorStops (handleColorChange newColor (id stop) s))
     = map id (colorStops s)
  /\ map position (colorStops (handleColorChange newColor (id stop) s))
     = map position (colorStops s).
Proof.
  set (f := fun st : ColorStop =>
              if String.eqb (id st) (id stop)
              then with_color st newColor else st).
  assert (Hf : forall x, id (f x) = id x).
  { intro x. unfold f. destruct (String.eqb (id x) (id stop)); reflexivity. }
  change (colorStops (handleColorChange newColor (id stop) s))
    with (map f (colorStops s)).
  split; [|split; [|split]].
  - rewrite (findStop_map f _ _ Hf), (findStop_unique _ stop Hids Hin).
    simpl. unfold f. rewrite String.eqb_refl. reflexivity.
  - intros j Hj. rewrite (findStop_map f _ _ Hf).
    destruct (findStop j (colorStops s)) as [x|] eqn:F; [|reflexivity].
    simpl. f_equal. unfold f.
    destruct (findStop_id _ _ _ F) as [E _].
    destruct (String.eqb_spec (id x) (id stop)) as [E'|]; [|reflexivity].
    exfalso. apply Hj. rewrite <- E. exact E'.
  - apply map_id_update, Hf.
  - rewrite map_map. apply map_ext. intro x. unfold f.
    destruct (String.eqb (id x) (id stop)); reflexivity.
Qed.

Lemma color_change_recolours_one_stop_witness :
  uniqueIds initialState
  /\ In (stopAt "#50E3C2" 100 "2") (colorStops initialState)
  /\ findStop "2" (colorStops (handleColorChange "#000000" "2" initialState))
     = Some (stopAt "#000000" 100 "2").
Proof.
  assert (H0 : uniqueIds initialState).
  { unfold uniqueIds. simpl. repeat constructor; simpl; intuition discriminate. }
  assert (H1 : In (stopAt "#50E3C2" 100 "2") (colorStops initialState)).
  { simpl. right. left. reflexivity. }
  split; [exact H0|]. split; [exact H1|].
  exact (proj1 (color_change_recolours_one_stop "#000000"
                  (stopAt "#50E3C2" 100 "2") initialState H0 H1)).
Defined.

(* ================================================================== *)
(** ** More on removal                                                *)
(* ================================================================== *)

Lemma withoutStop_twice (stopId : string) (l : list ColorStop) :
  withoutStop stopId (withoutStop stopId l) = withoutStop stopId l.
Proof.
  unfold withoutStop. induction l as [|x r IH]; [reflexivity|].
  simpl. destruct (negb (String.eqb (id x) stopId)) eqn:E; [|exact IH].
  simpl. rewrite E, IH. reflexivity.
Qed.

(** X8.  Removing the same identifier twice leaves the state the first
    removal left, in every state: the second call finds nothing to remove
    or is refused. *)
Theorem removeColorStop_twice (stopId : string) (s : State) :
  fst (removeColorStop stopId (fst (removeColorStop stopId s)))
  = fst (removeColorStop stopId s).
Proof.
  unfold removeColorStop at 2 3.
  destruct (List.length (colorStops s) <=? 2)%nat eqn:E; simpl.
  - unfold removeColorStop. rewrite E. reflexivity.
  - unfold removeColorStop.
    destruct (List.length
                (colorStops
                   (setColorStops
                      (filter (fun stop => negb (String.eqb (id stop) stopId)))
                      s)) <=? 2)%nat; simpl; [reflexivity|].
    rewrite setColorStops_twice. apply setColorStops_ext.
    apply (withoutStop_twice stopId).
Qed.

(** X9.  A removal issued from a rendered remove button always succeeds.
    The button of a stop is rendered only while the array holds more than
    two stops; then, with distinct identifiers, removing a stop of the state
    raises no notification, takes exactly one stop away, leaves no stop with
    that identifier, keeps the other stops in their order, and leaves at
    least two. *)
Theorem remove_button_succeeds (stop : ColorStop) (s : State)
    (Hids : uniqueIds s) (Hin : In stop (colorStops s))
    (Hshown : removeButtonRendered s = true) :
  snd (removeColorStop (id stop) s) = []
  /\ colorStops (fst (removeColorStop (id stop) s))
     = withoutStop (id stop) (colorStops s)
  /\ List.length (colorStops s)
     = S (List.length (colorStops (fst (removeColorStop (id stop) s))))
  /\ ~ In (id stop) (map id (colorStops (fst (removeColorStop (id stop) s))))
  /\ (2 <= List.length (colorStops (fst (removeColorStop (id stop) s))))%nat.
Proof.
  unfold removeButtonRendered in Hshown. apply Nat.ltb_lt in Hshown.
  assert (E : (List.length (colorStops s) <=? 2)%nat = false)
    by (apply Nat.leb_gt; exact Hshown).
  unfold removeColorStop. rewrite E. simpl.
  fold (withoutStop (id stop) (colorStops s)).
  assert (Hlen : List.length (colorStops s)
                 = S (List.length (withoutStop (id stop) (colorStops s)))).
  { apply withoutStop_present_length; [exact Hids|]. apply in_map, Hin. }
  split; [reflexivity|]. split; [reflexivity|]. split; [exact Hlen|].
  split; [apply withoutStop_gone | lia].
Qed.

Lemma remove_button_succeeds_witness :
  uniqueIds afterClick
  /\ In (stopAt "#FFFFFF" 50 "3") (colorStops afterClick)
  /\ removeButtonRendered afterClick = true
  /\ snd (removeColorStop "3" afterClick) = []
  /\ colorStops (fst (removeColorStop "3" afterClick)) = initialStops.
Proof.
  assert (H0 : uniqueIds afterClick).
  { unfold uniqueIds. simpl. repeat constructor; simpl; intuition discriminate. }
  assert (H1 : In (stopAt "#FFFFFF" 50 "3") (colorStops afterClick)).
  { simpl. right. right. left. reflexivity. }
  assert (H2 : removeButtonRendered afterClick = true) by reflexivity.
  split; [exact H0|]. split; [exact H1|]. split; [exact H2|].
  destruct (remove_button_succeeds (stopAt "#FFFFFF" 50 "3") afterClick
              H0 H1 H2) as [Ht [Hs _]].
  split; [exact Ht|]. etransitivity; [exact Hs | reflexivity].
Defined.

(* ================================================================== *)
(** ** More on the angle                                              *)
(* ================================================================== *)

Lemma Qround_bounds (x : Q) :
  inject_Z (JS.Qround x) - (1 # 2) <= x /\ x < inject_Z (JS.Qround x) + (1 # 2).
Proof.
  unfold JS.Qround. destruct (Qfloor_bounds (x + (1 # 2))) as [Fl Fh].
  split; lra.
Qed.

(* ================================================================== *)
(** ** The angle, in rounded arithmetic                               *)
(* ================================================================== *)

Lemma Qrem_360_nonneg (v : Q) :
  0 <= v -> 0 <= JS.Qrem v 360 /\ JS.Qrem v 360 < 360.
Proof.
  intro Hv. destruct (Qrem_360 v) as [t [_ [[_ Hhi] Hpos]]].
  split; [apply Hpos, Hv | exact Hhi].
Qed.

(** X10.  The normalisation [((a % 360) + 360) % 360] lands in [[0, 360)]
    in the arithmetic of the language, and the angle stored from it is a
    whole number between 0 and 360: for every finite angle [a] and every
    rounding of the sum that keeps the order and leaves 0 and 720 as they
    are -- binary64's among them -- the normalised angle is a number of
    [[0, 360)] and its [Math.round] a whole number of [[0, 360]]. *)
Theorem normalizeAngleRounded_range (rnd : Q -> JS.number) (a : Q)
    (Hmono : monotoneRounding rnd)
    (H0 : representable rnd 0) (H720 : representable rnd 720) :
  exists (v : Q) (z : Z),
    normalizeAngleRounded rnd a = JS.Fin v
    /\ 0 <= v /\ v < 360
    /\ storedAngleRounded rnd a = JS.Fin (inject_Z z)
    /\ (0 <= z <= 360)%Z.
Proof.
  destruct (Qrem_360 a) as [t [_ [[Hlo Hhi] _]]].
  set (r := JS.Qrem a 360) in *.
  pose proof (rnd_above rnd Hmono (r + 360) 0 H0) as Hge.
  pose proof (rnd_below rnd Hmono (r + 360) 720 H720) as Hle.
  unfold storedAngleRounded, normalizeAngleRounded. fold r.
  destruct (rnd (r + 360)) as [| | |u];
    try (specialize (Hge ltac:(lra)); specialize (Hle ltac:(lra));
         unfold JS.le in Hge, Hle; simpl in Hge, Hle; discriminate).
  assert (Hu0 : 0 <= u) by (apply le_Fin, Hge; lra).
  destruct (Qrem_360_nonneg u Hu0) as [Vlo Vhi].
  exists (JS.Qrem u 360), (JS.Qround (JS.Qrem u 360)).
  split; [reflexivity|]. split; [exact Vlo|]. split; [exact Vhi|].
  split; [reflexivity|].
  destruct (Qround_bounds (JS.Qrem u 360)) as [Bl Bh].
  split.
  - unfold JS.Qround. change 0%Z with (Qfloor 0). apply Qfloor_resp_le. lra.
  - assert (H : inject_Z (JS.Qround (JS.Qrem u 360)) < inject_Z 361).
    { change (inject_Z 361) with 361. lra. }
    rewrite <- Zlt_Qlt in H. lia.
Qed.

Lemma normalizeAngleRounded_range_witness :
  monotoneRounding binary64
  /\ representable binary64 0 /\ representable binary64 720
  /\ exists (v : Q) (z : Z),
       normalizeAngleRounded binary64 (- (1 # 4)) = JS.Fin v
       /\ 0 <= v /\ v < 360
       /\ storedAngleRounded binary64 (- (1 # 4)) = JS.Fin (inject_Z z)
       /\ (0 <= z <= 360)%Z.
Proof.
  assert (H0 : representable binary64 0) by (vm_compute; reflexivity).
  assert (H720 : representable binary64 720) by (vm_compute; reflexivity).
  split; [exact binary64_monotone|]. split; [exact H0|]. split; [exact H720|].
  exact (normalizeAngleRounded_range binary64 (- (1 # 4))
           binary64_monotone H0 H720).
Defined.

(** Where rounding shows.  In binary64 the angle nearest 0.1 is normalised
    to 0.10000000000002274 and not to itself, and a raw angle of about
    [-1.4e-14] is normalised to 0, where the exact value is just below
    360. *)
Remark normalizeAngleRounded_binary64_examples :
  normalizeAngleRounded binary64 (3602879701896397 # 36028797018963968)
  = JS.Fin (879609302221 # 8796093022208)
  /\ normalizeAngleRounded binary64
       (- (4436777100798803 # 316912650057057350374175801344))
     = JS.Fin 0
  /\ storedAngleRounded binary64
       (- (4436777100798803 # 316912650057057350374175801344))
     = JS.Fin 0
  /\ storedAngle (- (4436777100798803 # 316912650057057350374175801344))
     = 360%Z.
Proof.
  split; [vm_compute; reflexivity|]. split; [vm_compute; reflexivity|].
  split; vm_compute; reflexivity.
Qed.

(** X11.  What an angle update stores.  With the dial mounted the handler
    stores a whole number of degrees between 0 and 360 and touches neither
    the stops nor the drag flags; with the dial not mounted it does
    nothing. *)
Theorem angle_update_stores_whole_degrees (atan2_degrees : Q -> Q -> Q)
    (e : MouseEvent) (rect : DOMRect) (s : State) :
  (exists z : Z,
      angle (handleAngleChange atan2_degrees e (Some rect) s)
        = JS.Fin (inject_Z z)
      /\ (0 <= z <= 360)%Z)
  /\ colorStops (handleAngleChange atan2_degrees e (Some rect) s)
     = colorStops s
  /\ draggingStop (handleAngleChange atan2_degrees e (Some rect) s)
     = draggingStop s
  /\ isDraggingAngle (handleAngleChange atan2_degrees e (Some rect) s)
     = isDraggingAngle s
  /\ handleAngleChange atan2_degrees e None s = s.
Proof.
  split; [|repeat split].
  exists (storedAngle (pointerAngle atan2_degrees e rect)).
  split; [reflexivity|]. apply storedAngle_range.
Qed.

(* ================================================================== *)
(** ** Clicks and drags                                               *)
(* ================================================================== *)

Lemma clamp_inside (v : Q) : 0 <= v -> v <= 100 -> clamp v 0 100 == v.
Proof.
  intros Hlo Hhi. unfold clamp.
  destruct (Qle_bool v 0) eqn:E0; [apply Qle_bool_iff in E0; lra|].
  destruct (Qle_bool 100 v) eqn:E1; [apply Qle_bool_iff in E1; lra|].
  reflexivity.
Qed.

Lemma clickPosition_quotient (e : MouseEvent) (rect : DOMRect) :
  ~ rect_width rect == 0 ->
  exists v,
    clickPosition e rect = JS.Fin v
    /\ v == (clientX e - rect_left rect) / rect_width rect * 100.
Proof.
  intro Hw. unfold clickPosition.
  set (x := clientX e - rect_left rect).
  set (w := rect_width rect) in *.
  assert (Hd : (JS.Fin x / JS.Fin w)%js = JS.Fin (Qred (x / w))).
  { unfold JS.div. destruct (w ?= 0) eqn:Hc; try reflexivity.
    apply Qeq_alt in Hc. contradiction. }
  rewrite Hd. cbn [JS.mul].
  exists (Qred (Qred (x / w) * 100)). split; [reflexivity|].
  rewrite !Qred_correct. reflexivity.
Qed.

(** X13.  Inside the slider a click and a drag agree: for a pointer between
    the edges of a rectangle of positive width, the position a click gives
    the new stop is the position a drag to the same point gives the dragged
    stop, and it lies in [[0, 100]]. *)
Theorem click_agrees_with_drag_inside (e : MouseEvent) (rect : DOMRect)
    (Hin : insideRect e rect) :
  (clickPosition e rect == dragPosition e rect)%js
  /\ (JS.Fin 0 <= clickPosition e rect)%js
  /\ (clickPosition e rect <= JS.Fin 100)%js.
Proof.
  destruct Hin as [Hw Hbetween].
  destruct (clickPosition_inside e rect Hw Hbetween) as [Hlo Hhi].
  split; [|split; assumption].
  assert (Hnz : ~ rect_width rect == 0) by lra.
  destruct (clickPosition_quotient e rect Hnz) as [u [Hc Hu]].
  destruct (dragPosition_pointerToPercent e rect Hnz) as [v [Hd Hv]].
  rewrite Hc in *. rewrite Hd. apply le_Fin in Hlo, Hhi.
  apply eq_Fin. rewrite Hv. unfold pointerToPercent.
  rewrite clamp_inside by lra. exact Hu.
Qed.

Lemma click_agrees_with_drag_inside_witness :
  insideRect (mkMouseEvent 50 10) slider100
  /\ (clickPosition (mkMouseEvent 50 10) slider100
      == dragPosition (mkMouseEvent 50 10) slider100)%js.
Proof.
  assert (H : insideRect (mkMouseEvent 50 10) slider100).
  { unfold insideRect. simpl. lra. }
  split; [exact H|].
  exact (proj1 (click_agrees_with_drag_inside _ _ H)).
Defined.

(* ================================================================== *)
(** ** Invariants of a session                                        *)
(* ================================================================== *)

Lemma inRange_map (f : ColorStop -> ColorStop) (l : list ColorStop) :
  (forall x, inRange x -> inRange (f x)) ->
  Forall inRange l -> Forall inRange (map f l).
Proof.
  intros Hf Hl. induction Hl as [|x r Hx Hr IH]; simpl; constructor; auto.
Qed.

Lemma handleColorChange_inRange (c i : string) (s : State) :
  Forall inRange (colorStops s) ->
  Forall inRange (colorStops (handleColorChange c i s)).
Proof.
  intro H. simpl. apply inRange_map; [|exact H].
  intros x Hx. destruct (String.eqb (id x) i); exact Hx.
Qed.

Lemma handleAngleChange_if_stops (atan2_degrees : Q -> Q -> Q) (b : bool)
    (e : MouseEvent) (w : option DOMRect) (s : State) :
  colorStops (if b then handleAngleChange atan2_degrees e w s else s)
  = colorStops s.
Proof. destruct b; [apply handleAngleChange_stops | reflexivity]. Qed.

Lemma handleStopDrag_inRange (e : MouseEvent) (slider : option DOMRect)
    (i : string) (s : State) :
  match slider with
  | Some rect => ~ onEdgeOfEmpty e rect
  | None => True
  end ->
  Forall inRange (colorStops s) ->
  Forall inRange (colorStops (handleStopDrag e slider i s)).
Proof.
  destruct slider as [rect|]; [|intros _ H; exact H].
  intros Hoff H. simpl. apply inRange_map; [|exact H].
  intros x Hx. destruct (String.eqb (id x) i); [|exact Hx].
  unfold inRange. simpl.
  destruct (dragPosition_range e rect) as [[_ Hedge]|Hr]; [|exact Hr].
  exfalso. apply Hoff. exact Hedge.
Qed.

Section Session.
Variable atan2_degrees : Q -> Q -> Q.

Lemma step_inRange (ev : Event) (s : State) :
  wellPlaced ev ->
  Forall inRange (colorStops s) ->
  Forall inRange (colorStops (fst (step atan2_degrees ev s))).
Proof.
  intros Hwp H.
  destruct ev as [ |stopId|e w|e sl w| |e sl newId|c stopId|v stop|stopId| ];
    cbn [step fst].
  - simpl.
    apply (Permutation_Forall (Permutation_sym (Array_sort_perm byPosition _))).
    exact H.
  - exact H.
  - rewrite handleAngleChange_stops. exact H.
  - assert (Hs1 : Forall inRange
                    (colorStops (if isDraggingAngle s
                                 then handleAngleChange atan2_degrees e w s
                                 else s)))
      by (rewrite handleAngleChange_if_stops; exact H).
    destruct (draggingStop s) as [d|]; [|exact Hs1].
    destruct (truthy (Some d)); [|exact Hs1].
    apply handleStopDrag_inRange; [|exact Hs1].
    destruct sl as [rect|]; [exact Hwp | exact I].
  - destruct (truthy (draggingStop s)), (isDraggingAngle s); exact H.
  - unfold handleSliderClick. destruct sl as [rect|]; [|exact H].
    destruct (truthy (draggingStop s)); [exact H|].
    simpl. apply Forall_app. split; [exact H|].
    constructor; [|constructor].
    destruct Hwp as [Hw Hbetween].
    exact (clickPosition_inside e rect Hw Hbetween).
  - apply handleColorChange_inRange, H.
  - unfold positionInputChange. apply handleColorChange_inRange, H.
  - unfold removeColorStop.
    destruct (List.length (colorStops s) <=? 2)%nat; simpl; [exact H|].
    apply Forall_forall. intros x Hx. apply filter_In in Hx.
    exact (proj1 (Forall_forall _ _) H x (proj1 Hx)).
  - exact H.
Qed.
End Session.

(** X14.  Positions stay in [[0, 100]] as long as the geometry is sound:
    starting from the initial state, after any sequence of events in which
    every click on the track falls between the edges of a slider of positive
    width and no drag move meets the left edge of a slider of width zero,
    every stop of the state has a position in [[0, 100]]. *)
Theorem positions_stay_in_range (atan2_degrees : Q -> Q -> Q)
    (evs : list Event) (Hwp : Forall wellPlaced evs) :
  Forall inRange (colorStops (runEvents atan2_degrees evs initialState)).
Proof.
  unfold runEvents.
  assert (H0 : Forall inRange (colorStops initialState))
    by (repeat constructor).
  revert H0. generalize initialState as s.
  induction Hwp as [|ev r Hev Hr IH]; intros s H0; simpl; [exact H0|].
  apply IH. apply step_inRange; assumption.
Qed.

Lemma positions_stay_in_range_witness :
  Forall wellPlaced session
  /\ Forall inRange (colorStops (runEvents compassAtan2 session initialState)).
Proof.
  assert (H : Forall wellPlaced session).
  { unfold session.
    constructor; [unfold wellPlaced, insideRect; simpl; lra|].
    repeat constructor. }
  split; [exact H|].
  apply (positions_stay_in_range compassAtan2 session H).
Defined.

(** X15.  Identifiers stay distinct: in every state reached from the
    initial state by events whose clicks bring fresh identifiers, no two
    stops of the array carry the same identifier, so an update or a removal
    by identifier meets at most one stop. *)
Theorem reachable_ids_distinct (atan2_degrees : Q -> Q -> Q) (s : State)
    (Hreach : reachable atan2_degrees s) :
  uniqueIds s
  /\ (forall a b, In a (colorStops s) -> In b (colorStops s) ->
        id a = id b -> a = b).
Proof.
  pose proof (reachable_uniqueIds atan2_degrees s Hreach) as Hids.
  split; [exact Hids|].
  intros a b Ha Hb E. apply (unique_id_same_stop (colorStops s)); assumption.
Qed.

Lemma reachable_ids_distinct_witness :
  reachable compassAtan2 afterSession /\ uniqueIds afterSession.
Proof.
  assert (H : reachable compassAtan2 afterSession).
  { unfold afterSession, session. cbn [fold_left].
    repeat (apply reachable_step; [|try exact I]).
    - apply reachable_initial.
    - simpl. intuition discriminate. }
  split; [exact H|].
  exact (proj1 (reachable_ids_distinct compassAtan2 afterSession H)).
Defined.

(* ================================================================== *)
(** ** A whole drag                                                   *)
(* ================================================================== *)

Lemma findStop_perm (j : string) (l l' : list ColorStop) :
  NoDup (map id l) -> Permutation l l' -> findStop j l' = findStop j l.
Proof.
  intros Hnd Hp.
  assert (Hnd' : NoDup (map id l'))
    by (eapply Permutation_NoDup; [apply Permutation_map, Hp | exact Hnd]).
  destruct (findStop j l) as [x|] eqn:F.
  - destruct (findStop_id _ _ _ F) as [E Hx]. subst j.
    apply findStop_unique; [exact Hnd'|].
    apply (Permutation_in _ Hp), Hx.
  - destruct (findStop j l') as [y|] eqn:F'; [|reflexivity].
    destruct (findStop_id _ _ _ F') as [E Hy]. subst j.
    rewrite (findStop_unique l y Hnd) in F; [discriminate F|].
    apply (Permutation_in _ (Permutation_sym Hp)), Hy.
Qed.

Section Gesture.
Variable atan2_degrees : Q -> Q -> Q.
Variable stop : ColorStop.
Variable wheel : option DOMRect.
Variable s : State.
Hypothesis Hname : id stop <> ""%string.

Lemma truthy_name : truthy (Some (id stop)) = true.
Proof.
  simpl. apply negb_true_iff, String.eqb_neq, Hname.
Qed.

Lemma dragging_move (p : JS.number) (t : State) (e : MouseEvent)
    (rect : DOMRect) :
  dragging stop s p t ->
  dragging stop s (dragPosition e rect)
    (runEvents atan2_degrees
       [DocumentMouseMove e (Some rect) wheel; Render] t).
Proof.
  intros [Hids [Hd [Ha [Hang [Hf Ho]]]]].
  unfold runEvents. cbn [fold_left step fst].
  rewrite Hd, Ha, truthy_name.
  set (f := fun st : ColorStop =>
              if String.eqb (id st) (id stop)
              then with_position st (dragPosition e rect) else st).
  assert (Hfid : forall x, id (f x) = id x).
  { intro x. unfold f. destruct (String.eqb (id x) (id stop)); reflexivity. }
  assert (Hmid : NoDup (map id (map f (colorStops t)))).
  { rewrite (map_id_update f _ Hfid). exact Hids. }
  assert (Hperm : Permutation (map f (colorStops t))
                    (JS.Array_sort byPosition (map f (colorStops t))))
    by (apply Permutation_sym, Array_sort_perm).
  unfold dragging, uniqueIds. simpl.
  fold f.
  split; [eapply Permutation_NoDup; [apply Permutation_map, Hperm|exact Hmid]|].
  split; [exact Hd|]. split; [exact Ha|]. split; [exact Hang|].
  split.
  - rewrite (findStop_perm _ _ _ Hmid Hperm), (findStop_map f _ _ Hfid), Hf.
    simpl. unfold f. simpl. rewrite String.eqb_refl. reflexivity.
  - intros j Hj.
    rewrite (findStop_perm _ _ _ Hmid Hperm), (findStop_map f _ _ Hfid).
    rewrite <- (Ho j Hj).
    destruct (findStop j (colorStops t)) as [x|] eqn:F; [|reflexivity].
    simpl. f_equal. unfold f.
    destruct (findStop_id _ _ _ F) as [E _].
    destruct (String.eqb_spec (id x) (id stop)) as [E'|]; [|reflexivity].
    exfalso. apply Hj. rewrite <- E. exact E'.
Qed.

Lemma dragging_moves (moves : list (MouseEvent * DOMRect)) :
  forall p t,
    dragging stop s p t ->
    dragging stop s (finalPosition p moves)
      (runEvents atan2_degrees (dragMoves wheel moves) t).
Proof.
  induction moves as [|[e rect] r IH]; intros p t Ht; [exact Ht|].
  change (runEvents atan2_degrees (dragMoves wheel ((e, rect) :: r)) t)
    with (runEvents atan2_degrees (dragMoves wheel r)
            (runEvents atan2_degrees
               [DocumentMouseMove e (Some rect) wheel; Render] t)).
  change (finalPosition p ((e, rect) :: r))
    with (finalPosition (dragPosition e rect) r).
  apply IH. apply dragging_move with (p := p). exact Ht.
Qed.

Lemma dragging_gesture (moves : list (MouseEvent * DOMRect)) :
  uniqueIds s -> In stop (colorStops s) -> isDraggingAngle s = false ->
  let s' := runEvents atan2_degrees (dragGesture (id stop) wheel moves) s in
  findStop (id stop) (colorStops s')
  = Some (with_position stop (finalPosition (position stop) moves))
  /\ (forall j, j <> id stop ->
        findStop j (colorStops s') = findStop j (colorStops s))
  /\ uniqueIds s'
  /\ draggingStop s' = None
  /\ isDraggingAngle s' = false
  /\ angle s' = angle s.
Proof.
  intros Hids Hin Hidle s'.
  assert (H0 : dragging stop s (position stop)
                 (setDraggingStop (Some (id stop)) s)).
  { unfold dragging, uniqueIds. simpl.
    split; [exact Hids|]. split; [reflexivity|]. split; [exact Hidle|].
    split; [reflexivity|]. split; [|reflexivity].
    rewrite (findStop_unique _ stop Hids Hin).
    destruct stop; reflexivity. }
  pose proof (dragging_moves moves _ _ H0) as H1.
  set (t := runEvents atan2_degrees (dragMoves wheel moves)
              (setDraggingStop (Some (id stop)) s)) in *.
  assert (Hs' : s' = setDraggingStop None t).
  { unfold s', dragGesture, runEvents. simpl fold_left at 1.
    rewrite fold_left_app. fold (runEvents atan2_degrees (dragMoves wheel moves)
                                   (setDraggingStop (Some (id stop)) s)).
    fold t. destruct H1 as [_ [Hd [Ha _]]].
    cbn [fold_left step fst]. rewrite Hd, Ha, truthy_name. reflexivity. }
  destruct H1 as [Hu [Hd [Ha [Hang [Hf Ho]]]]].
  rewrite Hs'. simpl. repeat split; assumption.
Qed.
End Gesture.

(** X16.  A whole drag leaves the position of its last move.  In a state
    with distinct identifiers and no angle drag going on, pressing on the
    handle of a stop (whose identifier is not the empty string), moving the
    pointer any number of times -- each move followed by the render it
    causes -- and releasing leaves that stop at the position computed from
    the last move alone; every other identifier finds the stop it found
    before, the angle is kept, and no drag is active afterwards.  A press
    and release without a move changes no stop. *)
Theorem drag_gesture_last_move (atan2_degrees : Q -> Q -> Q)
    (stop : ColorStop) (wheel : option DOMRect)
    (moves : list (MouseEvent * DOMRect)) (e : MouseEvent) (rect : DOMRect)
    (s : State)
    (Hname : id stop <> ""%string)
    (Hids : uniqueIds s) (Hin : In stop (colorStops s))
    (Hidle : isDraggingAngle s = false) :
  findStop (id stop)
    (colorStops
       (runEvents atan2_degrees
          (dragGesture (id stop) wheel (moves ++ [(e, rect)])) s))
  = Some (with_position stop (dragPosition e rect))
  /\ (forall j, j <> id stop ->
        findStop j
          (colorStops
             (runEvents atan2_degrees
                (dragGesture (id stop) wheel (moves ++ [(e, rect)])) s))
        = findStop j (colorStops s))
  /\ draggingStop
       (runEvents atan2_degrees
          (dragGesture (id stop) wheel (moves ++ [(e, rect)])) s) = None
  /\ isDraggingAngle
       (runEvents atan2_degrees
          (dragGesture (id stop) wheel (moves ++ [(e, rect)])) s) = false
  /\ angle
       (runEvents atan2_degrees
          (dragGesture (id stop) wheel (moves ++ [(e, rect)])) s) = angle s
  /\ colorStops (runEvents atan2_degrees (dragGesture (id stop) wheel []) s)
     = colorStops s.
Proof.
  destruct (dragging_gesture atan2_degrees stop wheel s Hname
              (moves ++ [(e, rect)]) Hids Hin Hidle)
    as [Hf [Ho [_ [Hd [Ha Hang]]]]].
  unfold finalPosition in Hf. rewrite fold_left_app in Hf. simpl in Hf.
  split; [exact Hf|]. split; [exact Ho|]. split; [exact Hd|].
  split; [exact Ha|]. split; [exact Hang|].
  unfold runEvents, dragGesture. cbn [app fold_left step fst dragMoves flat_map].
  simpl. rewrite Hidle.
  destruct (negb (String.eqb (id stop) "")); reflexivity.
Qed.

Lemma drag_gesture_last_move_witness :
  id (stopAt "#4A90E2" 0 "1") <> ""%string
  /\ uniqueIds initialState
  /\ In (stopAt "#4A90E2" 0 "1") (colorStops initialState)
  /\ isDraggingAngle initialState = false
  /\ findStop "1"
       (colorStops
          (runEvents compassAtan2
             (dragGesture "1" (Some dial)
                ([(mkMouseEvent 130 0, slider100);
                  (mkMouseEvent 70 0, slider100)]
                 ++ [(mkMouseEvent 40 0, slider100)]))
             initialState))
     = Some (stopAt "#4A90E2" 40 "1").
Proof.
  assert (Hn : id (stopAt "#4A90E2" 0 "1") <> ""%string) by discriminate.
  assert (H0 : uniqueIds initialState).
  { unfold uniqueIds. simpl. repeat constructor; simpl; intuition discriminate. }
  assert (H1 : In (stopAt "#4A90E2" 0 "1") (colorStops initialState)).
  { simpl. left. reflexivity. }
  split; [exact Hn|]. split; [exact H0|]. split; [exact H1|].
  split; [reflexivity|].
  exact (proj1 (drag_gesture_last_move compassAtan2 (stopAt "#4A90E2" 0 "1")
                  (Some dial)
                  [(mkMouseEvent 130 0, slider100);
                   (mkMouseEvent 70 0, slider100)]
                  (mkMouseEvent 40 0) slider100 initialState
                  Hn H0 H1 eq_refl)).
Defined.

(* ================================================================== *)
(** ** Outside a drag                                                 *)
(* ================================================================== *)

Lemma idle_pointer_event (atan2_degrees : Q -> Q -> Q) (ev : Event)
    (s : State) :
  idle s -> pointerOnly ev -> fst (step atan2_degrees ev s) = s.
Proof.
  intros [Hd Ha] Hev.
  destruct ev; try contradiction; cbn [step fst]; rewrite Ha.
  - destruct (draggingStop s) as [d|]; [|reflexivity].
    rewrite Hd. reflexivity.
  - rewrite Hd. reflexivity.
Qed.

Lemma mouse_up_idle (atan2_degrees : Q -> Q -> Q) (s : State) :
  idle (fst (step atan2_degrees DocumentMouseUp s)).
Proof.
  cbn [step fst]. unfold idle.
  destruct (truthy (draggingStop s)) eqn:Hd, (isDraggingAngle s) eqn:Ha;
    simpl; rewrite ?Hd, ?Ha; split; reflexivity.
Qed.

(** X17.  A release ends every drag, and outside a drag the pointer does
    nothing: after a mouse-up, whatever the state, no drag is active, the
    stops and the angle are those of before, and any further sequence of
    document mouse moves and mouse-ups leaves the state exactly as the
    release left it. *)
Theorem release_ends_drag (atan2_degrees : Q -> Q -> Q) (evs : list Event)
    (s : State) (Hevs : Forall pointerOnly evs) :
  idle (fst (step atan2_degrees DocumentMouseUp s))
  /\ colorStops (fst (step atan2_degrees DocumentMouseUp s)) = colorStops s
  /\ angle (fst (step atan2_degrees DocumentMouseUp s)) = angle s
  /\ runEvents atan2_degrees (DocumentMouseUp :: evs) s
     = fst (step atan2_degrees DocumentMouseUp s).
Proof.
  split; [apply mouse_up_idle|].
  split; [cbn [step fst];
          destruct (truthy (draggingStop s)), (isDraggingAngle s); reflexivity|].
  split; [cbn [step fst];
          destruct (truthy (draggingStop s)), (isDraggingAngle s); reflexivity|].
  unfold runEvents. cbn [fold_left].
  pose proof (mouse_up_idle atan2_degrees s) as Hidle.
  revert Hidle. generalize (fst (step atan2_degrees DocumentMouseUp s)) as t.
  induction Hevs as [|ev r Hev Hr IH]; intros t Hidle; [reflexivity|].
  cbn [fold_left]. rewrite (idle_pointer_event atan2_degrees ev t Hidle Hev).
  apply IH, Hidle.
Qed.

Lemma release_ends_drag_witness :
  Forall pointerOnly
    [DocumentMouseMove (mkMouseEvent 70 0) (Some slider100) (Some dial);
     DocumentMouseUp]
  /\ runEvents compassAtan2
       [StopMouseDown "1"; DocumentMouseUp;
        DocumentMouseMove (mkMouseEvent 70 0) (Some slider100) (Some dial);
        DocumentMouseUp] initialState
     = initialState.
Proof.
  assert (H : Forall pointerOnly
                [DocumentMouseMove (mkMouseEvent 70 0) (Some slider100)
                   (Some dial);
                 DocumentMouseUp]).
  { repeat constructor. }
  split; [exact H|].
  destruct (release_ends_drag compassAtan2 _
              (setDraggingStop (Some "1"%string) initialState) H)
    as [_ [_ [_ Hrun]]].
  etransitivity; [exact Hrun | reflexivity].
Defined.

(* ================================================================== *)
(** ** What the numeric field shows                                   *)
(* ================================================================== *)

(** X18.  The numeric field of a stop whose position lies in [[0, 100]]
    shows a whole number between 0 and 100, within one half of the
    position. *)
Theorem displayedPosition_whole_percent (stop : ColorStop)
    (Hrange : inRange stop) :
  exists (q : Q) (z : Z),
    position stop = JS.Fin q
    /\ displayedPosition stop = JS.Fin (inject_Z z)
    /\ (0 <= z <= 100)%Z
    /\ inject_Z z - (1 # 2) <= q /\ q < inject_Z z + (1 # 2).
Proof.
  destruct Hrange as [Hlo Hhi]. unfold displayedPosition.
  destruct (position stop) as [| | |q];
    try (unfold JS.le in Hlo, Hhi; simpl in Hlo, Hhi; discriminate).
  apply le_Fin in Hlo, Hhi.
  exists q, (JS.Qround q). split; [reflexivity|]. split; [reflexivity|].
  destruct (Qround_bounds q) as [Bl Bh].
  split; [|split; assumption].
  split.
  - unfold JS.Qround. change 0%Z with (Qfloor 0). apply Qfloor_resp_le. lra.
  - assert (H : inject_Z (JS.Qround q) < inject_Z 101).
    { change (inject_Z 101) with 101. lra. }
    rewrite <- Zlt_Qlt in H. lia.
Qed.

Lemma displayedPosition_whole_percent_witness :
  inRange (stopAt "#FFFFFF" (335 # 10) "3")
  /\ exists (q : Q) (z : Z),
       position (stopAt "#FFFFFF" (335 # 10) "3") = JS.Fin q
       /\ displayedPosition (stopAt "#FFFFFF" (335 # 10) "3")
          = JS.Fin (inject_Z z)
       /\ (0 <= z <= 100)%Z
       /\ inject_Z z - (1 # 2) <= q /\ q < inject_Z z + (1 # 2).
Proof.
  assert (H : inRange (stopAt "#FFFFFF" (335 # 10) "3")).
  { split; reflexivity. }
  split; [exact H|].
  exact (displayedPosition_whole_percent _ H).
Defined.

(* ================================================================== *)
(** ** Adding a stop                                                  *)
(* ================================================================== *)

Lemma findStop_app_absent (j : string) (l : list ColorStop) (x : ColorStop) :
  findStop j (l ++ [x])
  = match findStop j l with
    | Some y => Some y
    | None => if String.eqb (id x) j then Some x else None
    end.
Proof.
  unfold findStop. induction l as [|y r IH]; simpl.
  - destruct (String.eqb (id x) j); reflexivity.
  - destruct (String.eqb (id y) j); [reflexivity|exact IH].
Qed.

(** X19.  A click on the track, outside a drag and with the slider mounted,
    appends exactly one white stop, at the position computed from the
    pointer, under the identifier generated; the stops there were keep their
    places.  When that identifier is fresh it finds the new stop, every other
    identifier finds the stop it found before, and the identifiers stay
    distinct.  A click during a drag does nothing. *)
Theorem slider_click_appends_one (e : MouseEvent) (rect : DOMRect)
    (newId : string) (s : State)
    (Hids : uniqueIds s)
    (Hfresh : ~ In newId (map id (colorStops s))) :
  (truthy (draggingStop s) = false ->
     colorStops (handleSliderClick e (Some rect) newId s)
     = colorStops s
       ++ [ {| color := "#FFFFFF"; position := clickPosition e rect;
               id := newId |} ]
     /\ List.length (colorStops (handleSliderClick e (Some rect) newId s))
        = S (List.length (colorStops s))
     /\ findStop newId (colorStops (handleSliderClick e (Some rect) newId s))
        = Some {| color := "#FFFFFF"; position := clickPosition e rect;
                  id := newId |}
     /\ (forall j, j <> newId ->
           findStop j (colorStops (handleSliderClick e (Some rect) newId s))
           = findStop j (colorStops s))
     /\ uniqueIds (handleSliderClick e (Some rect) newId s))
  /\ (truthy (draggingStop s) = true ->
        handleSliderClick e (Some rect) newId s = s).
Proof.
  split; intro Hd; unfold handleSliderClick; rewrite Hd; [|reflexivity].
  simpl.
  assert (Hnone : findStop newId (colorStops s) = None).
  { destruct (findStop newId (colorStops s)) as [y|] eqn:F; [|reflexivity].
    destruct (findStop_id _ _ _ F) as [E Hy].
    exfalso. apply Hfresh. rewrite <- E. apply in_map, Hy. }
  split; [reflexivity|].
  split; [rewrite length_app; simpl; lia|].
  split; [rewrite findStop_app_absent, Hnone; simpl;
          rewrite String.eqb_refl; reflexivity|].
  split.
  - intros j Hj. rewrite findStop_app_absent. simpl.
    destruct (findStop j (colorStops s)); [reflexivity|].
    destruct (String.eqb_spec newId j) as [E|]; [|reflexivity].
    exfalso. apply Hj. symmetry. exact E.
  - unfold uniqueIds. simpl. rewrite map_app. simpl.
    eapply Permutation_NoDup; [apply Permutation_cons_append|].
    constructor; assumption.
Qed.

Lemma slider_click_appends_one_witness :
  uniqueIds initialState
  /\ ~ In "3"%string (map id (colorStops initialState))
  /\ map id
       (colorStops
          (handleSliderClick (mkMouseEvent 50 10) (Some slider100) "3"
             initialState))
     = ["1"; "2"; "3"]%string.
Proof.
  assert (H0 : uniqueIds initialState).
  { unfold uniqueIds. simpl. repeat constructor; simpl; intuition discriminate. }
  assert (H1 : ~ In "3"%string (map id (colorStops initialState))).
  { simpl. intuition discriminate. }
  split; [exact H0|]. split; [exact H1|].
  destruct (slider_click_appends_one (mkMouseEvent 50 10) slider100 "3"
              initialState H0 H1) as [Hadd _].
  destruct (Hadd eq_refl) as [Hs _].
  rewrite Hs. reflexivity.
Defined.
